(** * The Thrift TypeScript runtime (src/lib/ts/thrift.ts)

    A shallow embedding of the tagged-value model ([TBase], [TList], [TMap],
    [TSet], [TStruct], [TField], [TMessage]) and of the JSON protocol
    ([TJSONProtocol]) that maps it to and from parsed JSON.

    The source is TypeScript: what reaches [deserializeValue] and
    [readMessage] is whatever [JSON.parse] returned, typed [any].  The
    embedding therefore starts with the few pieces of the ECMAScript runtime
    the codec leans on (truthiness, [==] and [<] against a number, property
    enumeration order, conversion of a value to a property name, [parseInt]),
    then follows the source file top to bottom. *)

From Stdlib Require Import ZArith List String Ascii Bool Lia DecimalString.
Import ListNotations.
Local Open Scope string_scope.
Local Open Scope Z_scope.

(* ===================================================================== *)
(** * Errors

    [throw new TProtocolException(code, message)] and the [TypeError] the
    engine raises when a value is used at the wrong shape.  The message of
    a protocol exception is the literal the source starts it with; the
    rendering of the offending value that the source appends is left out.
    [RangeError] is the engine's answer to exhausted recursion depth. *)

Inductive TProtocolExceptionType : Type :=
| UNKNOWN | INVALID_DATA | NEGATIVE_SIZE | SIZE_LIMIT | BAD_VERSION
| NOT_IMPLEMENTED.

Definition TProtocolExceptionType_code (t : TProtocolExceptionType) : Z :=
  match t with
  | UNKNOWN => 0 | INVALID_DATA => 1 | NEGATIVE_SIZE => 2 | SIZE_LIMIT => 3
  | BAD_VERSION => 4 | NOT_IMPLEMENTED => 5
  end.

Inductive exn : Type :=
| TProtocolException (code : TProtocolExceptionType) (message : string)
| TypeError (message : string)
| RangeError (message : string).

Inductive result (A : Type) : Type :=
| OK (a : A)
| Throw (e : exn).
Arguments OK {A} a.
Arguments Throw {A} e.

Definition bind {A B} (c : result A) (k : A -> result B) : result B :=
  match c with
  | OK a => k a
  | Throw e => Throw e
  end.

Declare Scope exn_scope.
Delimit Scope exn_scope with exn.
Notation "x <- c ;; k" := (bind c (fun x => k))
  (at level 61, c at next level, right associativity) : exn_scope.
Notation "c ;;; k" := (bind c (fun _ => k))
  (at level 61, right associativity) : exn_scope.
Local Open Scope exn_scope.

Definition throw {A} (code : TProtocolExceptionType) (message : string)
  : result A :=
  Throw (TProtocolException code message).

(** [for (let x of xs) out.push(f(x))]: left to right, the first throw
    leaves the loop. *)
Definition mapM {A B} (f : A -> result B) : list A -> result (list B) :=
  fix loop (l : list A) : result (list B) :=
    match l with
    | [] => OK []
    | x :: l' => y <- f x ;; ys <- loop l' ;; OK (y :: ys)
    end.

(** A loop that updates one accumulator ([data[k] = v] on each turn). *)
Definition foldM {A S} (f : S -> A -> result S) : list A -> S -> result S :=
  fix loop (l : list A) (s : S) : result S :=
    match l with
    | [] => OK s
    | x :: l' => s' <- f s x ;; loop l' s'
    end.

(* ===================================================================== *)
(** * Numbers

    A JavaScript number is an IEEE double.  The codec never computes with a
    payload: it stores it, tests it ([isNaN], truthiness, [typeof]),
    compares a length with it and prints it as a property name.  A finite
    number is therefore carried as the decimal [m * 10^e] that prints it
    ([Fin 15 (-1)] is 1.5); rounding of numerals beyond double precision and
    the sign of zero are outside the embedding. *)

Inductive number : Type :=
| NaN
| Infinity (negative : bool)
| Fin (m e : Z).

Definition isNaN (n : number) : bool :=
  match n with NaN => true | _ => false end.

Definition isFinite (n : number) : bool :=
  match n with Fin _ _ => true | _ => false end.

Definition of_nat (n : nat) : number := Fin (Z.of_nat n) 0.
Definition of_Z (z : Z) : number := Fin z 0.

Definition fin_compare (m1 e1 m2 e2 : Z) : comparison :=
  let lo := Z.min e1 e2 in
  Z.compare (m1 * 10 ^ (e1 - lo)) (m2 * 10 ^ (e2 - lo)).

(** Numeric comparison; [None] when either side is NaN. *)
Definition num_compare (a b : number) : option comparison :=
  match a, b with
  | NaN, _ | _, NaN => None
  | Infinity s, Infinity t =>
      Some (if Bool.eqb s t then Eq else if s then Lt else Gt)
  | Infinity s, Fin _ _ => Some (if s then Lt else Gt)
  | Fin _ _, Infinity t => Some (if t then Gt else Lt)
  | Fin m1 e1, Fin m2 e2 => Some (fin_compare m1 e1 m2 e2)
  end.

Definition num_eqb (a b : number) : bool :=
  match num_compare a b with Some Eq => true | _ => false end.

Definition num_ltb (a b : number) : bool :=
  match num_compare a b with Some Lt => true | _ => false end.

(** ** Printing: Number::toString, radix 10 *)

Definition digits_of_N (n : N) : list ascii :=
  list_ascii_of_string (NilZero.string_of_uint (N.to_uint n)).

Fixpoint strip_zeros (l : list ascii) : nat * list ascii :=
  match l with
  | "0"%char :: l' => let (z, r) := strip_zeros l' in (S z, r)
  | _ => (O, l)
  end.

Definition zeros (n : Z) : list ascii := repeat "0"%char (Z.to_nat n).

Definition NumberToString (x : number) : string :=
  match x with
  | NaN => "NaN"
  | Infinity false => "Infinity"
  | Infinity true => "-Infinity"
  | Fin m e =>
      if m =? 0 then "0" else
      let (z, rs) := strip_zeros (rev (digits_of_N (Z.abs_N m))) in
      let s := rev rs in
      let k := Z.of_nat (List.length s) in
      let n := k + (e + Z.of_nat z) in
      let body :=
        if (k <=? n) && (n <=? 21) then app s (zeros (n - k))
        else if (0 <? n) && (n <=? 21) then
          app (firstn (Z.to_nat n) s) ("."%char :: skipn (Z.to_nat n) s)
        else if (-6 <? n) && (n <=? 0) then
          "0"%char :: "."%char :: app (zeros (- n)) s
        else
          let ex := (if n - 1 <? 0 then "-"%char else "+"%char)
                      :: digits_of_N (Z.abs_N (n - 1)) in
          match s with
          | [d] => d :: "e"%char :: ex
          | d :: ds => d :: "."%char :: app ds ("e"%char :: ex)
          | [] => []
          end in
      string_of_list_ascii (if m <? 0 then "-"%char :: body else body)
  end.

(** ** Reading: StringToNumber and parseInt *)

Definition is_whitespace (c : ascii) : bool :=
  let n := nat_of_ascii c in
  ((9 <=? n) && (n <=? 13) || (n =? 32) || (n =? 160))%nat.

Fixpoint skip_whitespace (l : list ascii) : list ascii :=
  match l with
  | c :: l' => if is_whitespace c then skip_whitespace l' else l
  | [] => []
  end.

Definition trim (l : list ascii) : list ascii :=
  rev (skip_whitespace (rev (skip_whitespace l))).

Definition digit_value (radix : Z) (c : ascii) : option Z :=
  let n := Z.of_nat (nat_of_ascii c) in
  let v := if (48 <=? n) && (n <=? 57) then n - 48
           else if (97 <=? n) && (n <=? 122) then n - 87
           else if (65 <=? n) && (n <=? 90) then n - 55
           else 36 in
  if v <? radix then Some v else None.

(** The longest prefix of digits in [radix]: its value, how many digits it
    has, and what follows it. *)
Fixpoint take_digits (radix : Z) (acc : Z) (count : nat) (l : list ascii)
  : Z * nat * list ascii :=
  match l with
  | c :: l' =>
      match digit_value radix c with
      | Some v => take_digits radix (acc * radix + v) (S count) l'
      | None => (acc, count, l)
      end
  | [] => (acc, count, [])
  end.

Definition take_sign (l : list ascii) : bool * list ascii :=
  match l with
  | "-"%char :: l' => (true, l')
  | "+"%char :: l' => (false, l')
  | _ => (false, l)
  end.

Definition radix_prefix (l : list ascii) : option (Z * list ascii) :=
  match l with
  | "0"%char :: c :: l' =>
      if (Ascii.eqb c "x" || Ascii.eqb c "X")%char then Some (16, l')
      else if (Ascii.eqb c "o" || Ascii.eqb c "O")%char then Some (8, l')
      else if (Ascii.eqb c "b" || Ascii.eqb c "B")%char then Some (2, l')
      else None
  | _ => None
  end.

Definition exponent_part (l : list ascii) : option Z :=
  match l with
  | [] => Some 0
  | c :: l' =>
      if (Ascii.eqb c "e" || Ascii.eqb c "E")%char then
        let (neg, l2) := take_sign l' in
        match take_digits 10 0 O l2 with
        | (_, O, _) => None
        | (v, _, []) => Some (if neg then - v else v)
        | _ => None
        end
      else None
  end.

Definition decimal_literal (l : list ascii) : number :=
  let '(ip, ni, l1) := take_digits 10 0 O l in
  let '(m, nf, l2) :=
    match l1 with
    | "."%char :: l1' =>
        let '(m, nf, l2) := take_digits 10 ip O l1' in (m, Some nf, l2)
    | _ => (ip, None, l1)
    end in
  let digits := (ni + match nf with Some n => n | None => O end)%nat in
  match digits, exponent_part l2 with
  | O, _ | _, None => NaN
  | _, Some ex =>
      Fin m (ex - Z.of_nat match nf with Some n => n | None => O end)
  end.

Definition negate (x : number) : number :=
  match x with
  | NaN => NaN
  | Infinity s => Infinity (negb s)
  | Fin m e => Fin (- m) e
  end.

Definition StringToNumber (s : string) : number :=
  let l := trim (list_ascii_of_string s) in
  match l with
  | [] => Fin 0 0
  | _ =>
      match radix_prefix l with
      | Some (radix, l') =>
          match take_digits radix 0 O l' with
          | (_, O, _) => NaN
          | (v, _, []) => Fin v 0
          | _ => NaN
          end
      | None =>
          let (neg, l') := take_sign l in
          let x := if String.eqb (string_of_list_ascii l') "Infinity"
                   then Infinity false else decimal_literal l' in
          if neg then negate x else x
      end
  end.

(** [parseInt(s)] with no radix argument. *)
Definition parseInt (s : string) : number :=
  let (neg, l) := take_sign (skip_whitespace (list_ascii_of_string s)) in
  let (radix, l') :=
    match l with
    | "0"%char :: c :: r =>
        if (Ascii.eqb c "x" || Ascii.eqb c "X")%char then (16, r) else (10, l)
    | _ => (10, l)
    end in
  match take_digits radix 0 O l' with
  | (_, O, _) => NaN
  | (v, _, _) => Fin (if neg then - v else v) 0
  end.

(* ===================================================================== *)
(** * Values of type [any]

    What [JSON.parse] returns, plus [undefined] (the result of reading a
    property that is not there).  A string is its sequence of code units
    (those below 256).  An object is the list of its own enumerable
    properties in enumeration order: array-index names in ascending order
    first, then the other names in order of creation. *)

Unset Elimination Schemes.
Inductive JSValue : Type :=
| JUndefined
| JNull
| JBool (b : bool)
| JNum (n : number)
| JStr (s : string)
| JArr (items : list JSValue)
| JObj (props : list (string * JSValue)).
Set Elimination Schemes.

Section JSValue_induction.
Variable P : JSValue -> Prop.
Hypothesis Hundefined : P JUndefined.
Hypothesis Hnull : P JNull.
Hypothesis Hbool : forall b, P (JBool b).
Hypothesis Hnum : forall n, P (JNum n).
Hypothesis Hstr : forall s, P (JStr s).
Hypothesis Harr : forall items, Forall P items -> P (JArr items).
Hypothesis Hobj :
  forall props, Forall (fun kv => P (snd kv)) props -> P (JObj props).

Fixpoint JSValue_ind (v : JSValue) : P v :=
  match v with
  | JUndefined => Hundefined
  | JNull => Hnull
  | JBool b => Hbool b
  | JNum n => Hnum n
  | JStr s => Hstr s
  | JArr items =>
      Harr items
        ((fix all (l : list JSValue) : Forall P l :=
            match l with
            | [] => Forall_nil _
            | x :: l' => Forall_cons x (JSValue_ind x) (all l')
            end) items)
  | JObj props =>
      Hobj props
        ((fix all (l : list (string * JSValue))
            : Forall (fun kv => P (snd kv)) l :=
            match l with
            | [] => Forall_nil _
            | kv :: l' => Forall_cons kv (JSValue_ind (snd kv)) (all l')
            end) props)
  end.
End JSValue_induction.

(** [value === undefined || value === null] (the helper [isNull]). *)
Definition isNull (value : JSValue) : bool :=
  match value with
  | JUndefined | JNull => true
  | _ => false
  end.

(** ToBoolean: what [!x] and [x ? a : b] look at. *)
Definition truthy (v : JSValue) : bool :=
  match v with
  | JUndefined | JNull => false
  | JBool b => b
  | JNum NaN => false
  | JNum (Infinity _) => true
  | JNum (Fin m _) => negb (m =? 0)
  | JStr s => negb (String.eqb s "")
  | JArr _ | JObj _ => true
  end.

Definition has_own {V} (k : string) (o : list (string * V)) : bool :=
  existsb (fun kv => String.eqb (fst kv) k) o.

Fixpoint get_own {V} (k : string) (o : list (string * V)) : option V :=
  match o with
  | [] => None
  | (k', v) :: o' => if String.eqb k' k then Some v else get_own k o'
  end.

Definition join (parts : list string) : string :=
  match parts with
  | [] => ""
  | p :: ps => fold_left (fun acc q => acc ++ "," ++ q) ps p
  end.

(** ToString of a value: string concatenation, and the conversion of a
    computed property name.  An array prints its elements joined by commas
    ([null] and [undefined] elements print as nothing); a plain object
    prints as [[object Object]], unless it has an own property [toString]:
    a parsed value is never callable, and the conversion is a TypeError. *)
Fixpoint ToString (v : JSValue) : result string :=
  match v with
  | JUndefined => OK "undefined"
  | JNull => OK "null"
  | JBool b => OK (if b then "true" else "false")
  | JNum n => OK (NumberToString n)
  | JStr s => OK s
  | JArr items =>
      parts <- mapM (fun x => if isNull x then OK "" else ToString x) items ;;
      OK (join parts)
  | JObj props =>
      if has_own "toString" props
      then Throw (TypeError "Cannot convert object to primitive value")
      else OK "[object Object]"
  end.

(** ToNumber (objects go through ToPrimitive, which for parsed values is
    [ToString]). *)
Definition ToNumber (v : JSValue) : result number :=
  match v with
  | JUndefined => OK NaN
  | JNull => OK (Fin 0 0)
  | JBool b => OK (Fin (if b then 1 else 0) 0)
  | JNum n => OK n
  | JStr s => OK (StringToNumber s)
  | JArr _ | JObj _ => s <- ToString v ;; OK (StringToNumber s)
  end.

(** [v != k] for a number [k]: [null] and [undefined] are loosely
    equal to no number; everything else is compared after ToNumber. *)
Definition loose_neq (v : JSValue) (k : number) : result bool :=
  if isNull v then OK true
  else n <- ToNumber v ;; OK (negb (num_eqb n k)).

(** [v < k] for a number [k]. *)
Definition less_than (v : JSValue) (k : number) : result bool :=
  n <- ToNumber v ;; OK (num_ltb n k).

(** ** Property names and enumeration *)

Definition is_digit (c : ascii) : bool :=
  match digit_value 10 c with Some _ => true | None => false end.

(** An array index: the canonical decimal form of an integer in
    [0 .. 2^32 - 2]. *)
Definition array_index (k : string) : option Z :=
  let l := list_ascii_of_string k in
  match l with
  | [] => None
  | c :: r =>
      if forallb is_digit l && (negb (Ascii.eqb c "0") || (List.length r =? 0)%nat)
      then let '(v, _, _) := take_digits 10 0 O l in
           if v <? 4294967295 then Some v else None
      else None
  end.

Definition index_name (i : nat) : string := NumberToString (of_nat i).

Fixpoint indexed_from {V} (i : nat) (l : list V) : list (string * V) :=
  match l with
  | [] => []
  | x :: l' => (index_name i, x) :: indexed_from (S i) l'
  end.

Definition string_chars (s : string) : list JSValue :=
  map (fun c => JStr (String c "")) (list_ascii_of_string s).

(** [for (let key in v)], each key with [v[key]].  Nothing is enumerated
    for [null], [undefined], numbers and booleans; a string enumerates its
    characters. *)
Definition for_in (v : JSValue) : list (string * JSValue) :=
  match v with
  | JObj props => props
  | JArr items => indexed_from O items
  | JStr s => indexed_from O (string_chars s)
  | _ => []
  end.

(** [v.length] *)
Definition length_of (v : JSValue) : JSValue :=
  match v with
  | JArr items => JNum (of_nat (List.length items))
  | JStr s => JNum (of_nat (String.length s))
  | JObj props =>
      match get_own "length" props with Some x => x | None => JUndefined end
  | _ => JUndefined
  end.

(** [v[i]] for a literal index [i]. *)
Definition at_index (v : JSValue) (i : nat) : JSValue :=
  match v with
  | JArr items => nth i items JUndefined
  | JStr s => nth i (string_chars s) JUndefined
  | JObj props =>
      match get_own (index_name i) props with
      | Some x => x
      | None => JUndefined
      end
  | _ => JUndefined
  end.

(** [array.shift()] *)
Definition shift (l : list JSValue) : JSValue * list JSValue :=
  match l with
  | [] => (JUndefined, [])
  | x :: l' => (x, l')
  end.

Fixpoint replace_own {V} (k : string) (v : V) (o : list (string * V))
  : list (string * V) :=
  match o with
  | [] => []
  | (k', v') :: o' =>
      if String.eqb k' k then (k', v) :: o'
      else (k', v') :: replace_own k v o'
  end.

Fixpoint insert_index {V} (n : Z) (k : string) (v : V)
  (o : list (string * V)) : list (string * V) :=
  match o with
  | [] => [(k, v)]
  | (k', v') :: o' =>
      match array_index k' with
      | Some n' =>
          if n' <? n then (k', v') :: insert_index n k v o'
          else (k, v) :: o
      | None => (k, v) :: o
      end
  end.

(** [o[k] = v] on an object created by [{}].  Assigning [__proto__] runs
    the inherited setter and creates no own property (an object assigned
    that way becomes the prototype of [o]; what [o] inherits from it is
    not part of the list, and [JSON.stringify] does not write it); an
    existing property keeps its place; a new array index is placed among
    the indices; any other new name goes last. *)
Definition obj_set {V} (k : string) (v : V) (o : list (string * V))
  : list (string * V) :=
  if String.eqb k "__proto__" then o
  else if has_own k o then replace_own k v o
  else match array_index k with
       | Some n => insert_index n k v o
       | None => (o ++ [(k, v)])%list
       end.

(** CreateDataProperty, as [JSON.parse] uses it to build an object: the
    placement of [obj_set], and no setter is run, so [__proto__] becomes
    an own property like any other name. *)
Definition define_own {V} (k : string) (v : V) (o : list (string * V))
  : list (string * V) :=
  if has_own k o then replace_own k v o
  else match array_index k with
       | Some n => insert_index n k v o
       | None => (o ++ [(k, v)])%list
       end.

(** ** JSON text

    The text that goes through the transport, carried as the JSON document
    it spells: white space, the choice of escapes in a string and the
    spelling of a numeral are left out, what the text can and cannot hold
    is kept.  A text holds no [undefined], no NaN and no infinite number. *)
Unset Elimination Schemes.
Inductive JSONText : Type :=
| json_null
| json_bool (b : bool)
| json_number (m e : Z)
| json_string (s : string)
| json_array (elements : list JSONText)
| json_object (members : list (string * JSONText)).
Set Elimination Schemes.

(** [JSON.stringify(value)]; [None] is the result [undefined].  A number
    that is not finite is written [null]; in an array [undefined] is
    written [null]; a property whose value is [undefined] is left out.  A
    value of the embedding holds no function, hence no [toJSON]. *)
Fixpoint JSON_stringify (value : JSValue) : option JSONText :=
  match value with
  | JUndefined => None
  | JNull => Some json_null
  | JBool b => Some (json_bool b)
  | JNum (Fin m e) => Some (json_number m e)
  | JNum _ => Some json_null
  | JStr s => Some (json_string s)
  | JArr items =>
      Some (json_array
              (map (fun x => match JSON_stringify x with
                             | Some t => t
                             | None => json_null
                             end) items))
  | JObj props =>
      Some (json_object
              (flat_map (fun kx => match JSON_stringify (snd kx) with
                                   | Some t => [(fst kx, t)]
                                   | None => []
                                   end) props))
  end.

(** [JSON.parse(text)]: the members of an object are defined one after
    the other, so a repeated name keeps its last value and the names come
    out in enumeration order. *)
Fixpoint JSON_parse (text : JSONText) : JSValue :=
  match text with
  | json_null => JNull
  | json_bool b => JBool b
  | json_number m e => JNum (Fin m e)
  | json_string s => JStr s
  | json_array elements => JArr (map JSON_parse elements)
  | json_object members =>
      JObj (fold_left (fun o kt => define_own (fst kt) (JSON_parse (snd kt)) o)
                      members [])
  end.

(* ===================================================================== *)
(** * Type tags

    [enum TType]: one constructor per numeric code; the members that share
    a code ([BYTE]/[I08] and [STRING]/[UTF7]) are the same tag. *)

Inductive TType : Type :=
| STOP | VOID | BOOL | I08 | DOUBLE | I16 | I32 | I64 | STRING | STRUCT
| MAP | SET | LIST | UTF8 | UTF16.

Definition BYTE : TType := I08.
Definition UTF7 : TType := STRING.

Definition TType_code (t : TType) : Z :=
  match t with
  | STOP => 0 | VOID => 1 | BOOL => 2 | I08 => 3 | DOUBLE => 4 | I16 => 6
  | I32 => 8 | I64 => 10 | STRING => 11 | STRUCT => 12 | MAP => 13
  | SET => 14 | LIST => 15 | UTF8 => 16 | UTF16 => 17
  end.

Definition TType_eq_dec (a b : TType) : {a = b} + {a <> b}.
Proof. decide equality. Defined.

(** [a === b] on tags *)
Definition TType_eqb (a b : TType) : bool :=
  if TType_eq_dec a b then true else false.

Inductive TMessageType : Type := CALL | REPLY | EXCEPTION | ONEWAY.

Definition TMessageType_code (t : TMessageType) : Z :=
  match t with CALL => 1 | REPLY => 2 | EXCEPTION => 3 | ONEWAY => 4 end.

(* ===================================================================== *)
(** * Tagged values

    The classes implementing [TValue].  A reference of type [TValue] may be
    [null] ([serializeValue] tests for it): that is [TNullRef].  The
    payload of a [TBase] (its field [value]) is [boolean | number | string]
    or absent.  The [fields] of a [TStruct] are a JavaScript object: the
    property names are strings, and [fields[id]] converts the number [id]
    to its name. *)

Inductive prim : Type :=
| PBool (b : bool)
| PNum (n : number)
| PStr (s : string).

Record TField_of (V : Type) : Type := mkTField {
  fieldType : TType;
  field_value : V
}.
Arguments mkTField {V} fieldType field_value.
Arguments fieldType {V} _.
Arguments field_value {V} _.

Record TMapEntry_of (V : Type) : Type := mkTMapEntry {
  key : V;
  value : V
}.
Arguments mkTMapEntry {V} key value.
Arguments key {V} _.
Arguments value {V} _.

Unset Elimination Schemes.
Inductive TValue : Type :=
| TNullRef
| TBase (valueType : TType) (base_value : option prim)
| TList (itemType : TType) (items : list TValue)
| TMap (keyType itemType : TType) (items : list (TMapEntry_of TValue))
| TSet (itemType : TType) (items : list TValue)
| TStruct (fields : list (string * TField_of TValue)).
Set Elimination Schemes.

Definition TField : Type := TField_of TValue.
Definition TMapEntry : Type := TMapEntry_of TValue.

Section TValue_induction.
Variable P : TValue -> Prop.
Hypothesis Hnull : P TNullRef.
Hypothesis Hbase : forall valueType base_value, P (TBase valueType base_value).
Hypothesis Hlist :
  forall itemType items, Forall P items -> P (TList itemType items).
Hypothesis Hmap :
  forall keyType itemType items,
    Forall (fun e => P (key e) /\ P (value e)) items ->
    P (TMap keyType itemType items).
Hypothesis Hset :
  forall itemType items, Forall P items -> P (TSet itemType items).
Hypothesis Hstruct :
  forall fields,
    Forall (fun kf => P (field_value (snd kf))) fields ->
    P (TStruct fields).

Fixpoint TValue_ind (v : TValue) : P v :=
  let all_items :=
    fix all (l : list TValue) : Forall P l :=
      match l with
      | [] => Forall_nil _
      | x :: l' => Forall_cons x (TValue_ind x) (all l')
      end in
  match v with
  | TNullRef => Hnull
  | TBase valueType base_value => Hbase valueType base_value
  | TList itemType items => Hlist itemType items (all_items items)
  | TMap keyType itemType items =>
      Hmap keyType itemType items
        ((fix all (l : list (TMapEntry_of TValue))
            : Forall (fun e => P (key e) /\ P (value e)) l :=
            match l with
            | [] => Forall_nil _
            | e :: l' =>
                Forall_cons e
                  (conj (TValue_ind (key e)) (TValue_ind (value e)))
                  (all l')
            end) items)
  | TSet itemType items => Hset itemType items (all_items items)
  | TStruct fields =>
      Hstruct fields
        ((fix all (l : list (string * TField_of TValue))
            : Forall (fun kf => P (field_value (snd kf))) l :=
            match l with
            | [] => Forall_nil _
            | kf :: l' =>
                Forall_cons kf (TValue_ind (field_value (snd kf))) (all l')
            end) fields)
  end.
End TValue_induction.

(** The getter [valueType]: a field of [TBase], a constant of the other
    classes. *)
Definition valueType (v : TValue) : result TType :=
  match v with
  | TNullRef => Throw (TypeError "Cannot read properties of null")
  | TBase valueType _ => OK valueType
  | TList _ _ => OK LIST
  | TMap _ _ _ => OK MAP
  | TSet _ _ => OK SET
  | TStruct _ => OK STRUCT
  end.

(** ** The seven typed getters

    The getters of [TBase] return [this.value] as it is (the [as boolean]
    of the source is a compile-time cast): the result is the raw payload,
    absent or not.  The getters of the containers return [this]. *)

Definition expected {A} (what : string) : result A :=
  throw INVALID_DATA ("expected " ++ what ++ " value").

Definition null_access {A} : result A :=
  Throw (TypeError "Cannot read properties of null").

Definition booleanValue (v : TValue) : result (option prim) :=
  match v with
  | TNullRef => null_access
  | TBase BOOL base_value => OK base_value
  | _ => expected "boolean"
  end.

Definition numberValue (v : TValue) : result (option prim) :=
  match v with
  | TNullRef => null_access
  | TBase (I08 | I16 | I32 | I64 | DOUBLE) base_value => OK base_value
  | _ => expected "number"
  end.

Definition stringValue (v : TValue) : result (option prim) :=
  match v with
  | TNullRef => null_access
  | TBase (STRING | UTF8 | UTF16) base_value => OK base_value
  | _ => expected "string"
  end.

Definition listValue (v : TValue) : result TValue :=
  match v with
  | TNullRef => null_access
  | TList _ _ => OK v
  | _ => expected "list"
  end.

Definition mapValue (v : TValue) : result TValue :=
  match v with
  | TNullRef => null_access
  | TMap _ _ _ => OK v
  | _ => expected "map"
  end.

Definition setValue (v : TValue) : result TValue :=
  match v with
  | TNullRef => null_access
  | TSet _ _ => OK v
  | _ => expected "set"
  end.

Definition structValue (v : TValue) : result TValue :=
  match v with
  | TNullRef => null_access
  | TStruct _ => OK v
  | _ => expected "struct"
  end.

(** [asField()]: [new TField(this.valueType, this)] *)
Definition asField (v : TValue) : result TField :=
  t <- valueType v ;; OK (mkTField t v).

(** [TStruct.getField(id, fieldType)].  [this.fields[id]] converts the
    number [id] to a property name; a stored [TField] is an object, hence
    truthy; [return null] is [None]. *)
Definition getField (fields : list (string * TField)) (id : number)
  (expectedType : TType) : option TField :=
  match get_own (NumberToString id) fields with
  | Some f => if TType_eqb (fieldType f) expectedType then Some f else None
  | None => None
  end.

Record TMessage : Type := mkTMessage {
  name : JSValue;
  messageType : JSValue;
  seqid : JSValue;
  message_value : TValue
}.

(* ===================================================================== *)
(** * TJSONProtocol *)

Definition VERSION : number := Fin 1 0.

(** [typeString(type)]: the switch has eleven cases; [BYTE] and [UTF7] are
    reached through the codes they share with [I08] and [STRING]. *)
Definition typeString (type : TType) : result string :=
  match type with
  | BOOL => OK "tf"
  | I08 => OK "i8"
  | I16 => OK "i16"
  | I32 => OK "i32"
  | I64 => OK "i64"
  | DOUBLE => OK "dbl"
  | STRING => OK "str"
  | LIST => OK "lst"
  | MAP => OK "map"
  | SET => OK "set"
  | STRUCT => OK "rec"
  | STOP | VOID | UTF8 | UTF16 => throw INVALID_DATA "unsupported type ("
  end.

(** [typeOfString(type)]: the argument is whatever the input holds at that
    place; [switch] compares with [===], so only a string can match.  The
    message is built by concatenating [type], which converts it to a
    string first. *)
Definition typeOfString (type : JSValue) : result TType :=
  let unsupported :=
    ToString type ;;; throw INVALID_DATA "unsupported type (" in
  match type with
  | JStr s =>
      if String.eqb s "tf" then OK BOOL
      else if String.eqb s "i8" then OK I08
      else if String.eqb s "i16" then OK I16
      else if String.eqb s "i32" then OK I32
      else if String.eqb s "i64" then OK I64
      else if String.eqb s "str" then OK STRING
      else if String.eqb s "dbl" then OK DOUBLE
      else if String.eqb s "lst" then OK LIST
      else if String.eqb s "map" then OK MAP
      else if String.eqb s "set" then OK SET
      else if String.eqb s "rec" then OK STRUCT
      else unsupported
  | _ => unsupported
  end.

(** [serializeValue(value)].  The result is the data handed to
    [JSON.stringify]: own properties only.

    A [TBase] whose tag is a container tag is cast by the source to the
    container class and read through fields it does not have:
    [typeString(undefined)] throws for LIST and SET, iterating
    [undefined] is a TypeError for MAP, and [for ... in undefined] runs no
    turn for STRUCT.

    In [data2[k] = v] the key and the value are serialized in that order and
    the key is converted to a property name at the assignment. *)
Fixpoint serializeValue (v : TValue) : result JSValue :=
  match v with
  | TNullRef => OK JNull
  | TBase BOOL base_value =>
      match base_value with
      | None => OK JNull
      | Some (PBool data) => OK (JNum (Fin (if data then 1 else 0) 0))
      | Some _ => throw INVALID_DATA "boolean expected ("
      end
  | TBase (I08 | I16 | I32 | I64 | DOUBLE) base_value =>
      match base_value with
      | None => OK JNull
      | Some (PNum data) =>
          if isNaN data then throw INVALID_DATA "number is NaN"
          else OK (JNum data)
      | Some _ => throw INVALID_DATA "number expected ("
      end
  | TBase (STRING | UTF8 | UTF16) base_value =>
      match base_value with
      | None => OK JNull
      | Some (PStr data) => OK (JStr data)
      | Some _ => throw INVALID_DATA "string expected ("
      end
  | TBase (LIST | SET) _ => throw INVALID_DATA "unsupported type ("
  | TBase MAP _ => Throw (TypeError "map.items is not iterable")
  | TBase STRUCT _ => OK (JObj [])
  | TBase (STOP | VOID) _ => throw INVALID_DATA "unsupported value type ("
  | TList itemType items | TSet itemType items =>
      t <- typeString itemType ;;
      data <- mapM serializeValue items ;;
      OK (JArr (JStr t :: JNum (of_nat (List.length items)) :: data))
  | TMap keyType itemType items =>
      data2 <- foldM (fun data2 item =>
                        k <- serializeValue (key item) ;;
                        x <- serializeValue (value item) ;;
                        p <- ToString k ;;
                        OK (obj_set p x data2))
                     items [] ;;
      kt <- typeString keyType ;;
      it <- typeString itemType ;;
      OK (JArr [JStr kt; JStr it; JNum (of_nat (List.length items));
                JObj data2])
  | TStruct fields =>
      data <- foldM (fun data kf =>
                       t <- typeString (fieldType (snd kf)) ;;
                       x <- serializeValue (field_value (snd kf)) ;;
                       OK (obj_set (fst kf) (JObj (obj_set t x [])) data))
                    fields [] ;;
      OK (JObj data)
  end.

(** [deserializeValue(valueType, value)].  The body of the method, with
    the recursive calls ([this.deserializeValue]) as [self].  The LIST and
    SET cases of the source differ in the words of their messages and in
    the class they build: they are [deserialize_sequence].  [shift()] takes
    the elements out of the caller's array; the result does not depend on
    it. *)
Section deserializeValue.
Variable self : TType -> JSValue -> result TValue.

Definition deserialize_sequence (what : string)
  (make : TType -> list TValue -> TValue) (value : JSValue)
  : result TValue :=
  short <- (if truthy value then less_than (length_of value) (Fin 2 0)
            else OK true) ;;
  if (short : bool) then throw INVALID_DATA (what ++ " expected: ") else
  match value with
  | JArr list =>
      let (t, list) := shift list in
      itemType <- typeOfString t ;;
      let (size, data) := shift list in
      items <- mapM (self itemType) data ;;
      differs <- loose_neq size (of_nat (List.length items)) ;;
      if (differs : bool)
      then throw INVALID_DATA (what ++ " size mismatch: ")
      else OK (make itemType items)
  | _ => Throw (TypeError (what ++ ".shift is not a function"))
  end.

Definition deserializeValue_body (valueType : TType) (value : JSValue)
  : result TValue :=
  match valueType with
  | BOOL =>
      if isNull value then OK (TBase valueType None)
      else OK (TBase valueType (Some (PBool (truthy value))))
  | I08 | I16 | I32 | I64 | DOUBLE =>
      if isNull value then OK (TBase valueType None)
      else match value with
           | JNum n => OK (TBase valueType (Some (PNum n)))
           | _ => throw INVALID_DATA "number expected: "
           end
  | UTF8 | UTF16 | STRING =>
      if isNull value then OK (TBase valueType None)
      else match value with
           | JStr s => OK (TBase valueType (Some (PStr s)))
           | _ => throw INVALID_DATA "string expected: "
           end
  | LIST => deserialize_sequence "list" TList value
  | MAP =>
      bad <- (if truthy value then loose_neq (length_of value) (Fin 4 0)
              else OK true) ;;
      if (bad : bool) then throw INVALID_DATA "map expected: " else
      match value with
      | JArr map =>
          let (kt, map) := shift map in
          keyType <- typeOfString kt ;;
          let (it, map) := shift map in
          itemType <- typeOfString it ;;
          let (size, map) := shift map in
          let (data, map) := shift map in
          items <- mapM (fun kx =>
                           k <- self keyType (JStr (fst kx)) ;;
                           x <- self itemType (snd kx) ;;
                           OK (mkTMapEntry k x))
                        (for_in data) ;;
          differs <- loose_neq size (of_nat (List.length items)) ;;
          if (differs : bool)
          then throw INVALID_DATA "map size mismatch: "
          else OK (TMap keyType itemType items)
      | _ => Throw (TypeError "map.shift is not a function")
      end
  | SET => deserialize_sequence "set" TSet value
  | STRUCT =>
      if negb (truthy value) then throw INVALID_DATA "struct expected: "
      else
        fields <- foldM (fun fields id_inner =>
                    foldM (fun fields type_x =>
                             fieldType <- typeOfString (JStr (fst type_x)) ;;
                             x <- self fieldType (snd type_x) ;;
                             OK (obj_set
                                   (NumberToString (parseInt (fst id_inner)))
                                   (mkTField fieldType x) fields))
                          (for_in (snd id_inner)) fields)
                  (for_in value) [] ;;
        OK (TStruct fields)
  | STOP | VOID =>
      ToString value ;;; throw INVALID_DATA "unsupported value type ("
  end.
End deserializeValue.

(** The method itself: the body closed over its own recursion.  Each call
    goes one level into the input, so [depth value] levels are enough;
    [deserializeValue_unfold] below states that the function equals its
    body applied to itself. *)
Fixpoint deserializeValue_upto (levels : nat) (valueType : TType)
  (value : JSValue) : result TValue :=
  match levels with
  | O => Throw (RangeError "Maximum call stack size exceeded")
  | S levels' =>
      deserializeValue_body (deserializeValue_upto levels') valueType value
  end.

Fixpoint depth (v : JSValue) : nat :=
  match v with
  | JArr items => S (fold_right (fun x d => Nat.max (depth x) d) 1%nat items)
  | JObj props =>
      S (fold_right (fun kx d => Nat.max (depth (snd kx)) d) 1%nat props)
  | _ => 1%nat
  end.

Definition deserializeValue (valueType : TType) (value : JSValue)
  : result TValue :=
  deserializeValue_upto (depth value) valueType value.

(** [readMessage()], after [transport.read()] and [JSON.parse]: the
    function applied to the parsed [data]. *)
Definition readMessage (data : JSValue) : result TMessage :=
  bad <- (if truthy data then loose_neq (length_of data) (Fin 5 0)
          else OK true) ;;
  if (bad : bool) then throw INVALID_DATA "illegal data format" else
  let version := at_index data 0 in
  let name := at_index data 1 in
  let messageType := at_index data 2 in
  let seqid := at_index data 3 in
  let value := at_index data 4 in
  differs <- loose_neq version VERSION ;;
  if (differs : bool) then throw BAD_VERSION "unsupported version (" else
  payload <- deserializeValue STRUCT value ;;
  OK (mkTMessage name messageType seqid payload).

(** [readStruct()], after [transport.read()] and [JSON.parse]. *)
Definition readStruct (data : JSValue) : result TValue :=
  if negb (truthy data) then throw INVALID_DATA "illegal data format"
  else deserializeValue STRUCT data.

(** [writeMessage(message)]: the text given to [transport.write], that
    is [JSON.stringify(data)] for the frame [data]. *)
Definition writeMessage (message : TMessage) : result (option JSONText) :=
  payload <- serializeValue (message_value message) ;;
  let data := [JNum VERSION; name message; messageType message;
               seqid message; payload] in
  OK (JSON_stringify (JArr data)).

(** [writeStruct(struct)]: the loop of the STRUCT case of
    [serializeValue], written out once more by the source, then
    [JSON.stringify]. *)
Definition writeStruct (fields : list (string * TField))
  : result (option JSONText) :=
  data <- foldM (fun data kf =>
                   let field := snd kf in
                   t <- typeString (fieldType field) ;;
                   x <- serializeValue (field_value field) ;;
                   let item := obj_set t x [] in
                   OK (obj_set (fst kf) (JObj item) data))
                fields [] ;;
  OK (JSON_stringify (JObj data)).

(* ===================================================================== *)
(** * Vocabulary of the properties *)

(** The tags of the wire table, in the order of [typeString]. *)
Definition wire_tags : list TType :=
  [BOOL; I08; I16; I32; I64; DOUBLE; STRING; LIST; MAP; SET; STRUCT].

Definition in_wire_table (t : TType) : bool :=
  existsb (TType_eqb t) wire_tags.

Inductive scalar_kind : Type := KBoolean | KNumber | KString.

(** The tags a [TBase] is meant to carry, by the kind of their payload. *)
Definition scalar_kind_of (t : TType) : option scalar_kind :=
  match t with
  | BOOL => Some KBoolean
  | I08 | I16 | I32 | I64 | DOUBLE => Some KNumber
  | STRING | UTF8 | UTF16 => Some KString
  | _ => None
  end.

Definition is_scalar_tag (t : TType) : bool :=
  match scalar_kind_of t with Some _ => true | None => false end.

(** The seven getters behind one name, and what a getter hands out: the
    payload of a [TBase] or the container itself. *)
Inductive accessor : Type :=
| BooleanValue | NumberValue | StringValue | ListValue | MapValue
| SetValue | StructValue.

Inductive held : Type :=
| Payload (p : option prim)
| Container (v : TValue).

Definition access (a : accessor) (v : TValue) : result held :=
  match a with
  | BooleanValue => p <- booleanValue v ;; OK (Payload p)
  | NumberValue => p <- numberValue v ;; OK (Payload p)
  | StringValue => p <- stringValue v ;; OK (Payload p)
  | ListValue => x <- listValue v ;; OK (Container x)
  | MapValue => x <- mapValue v ;; OK (Container x)
  | SetValue => x <- setValue v ;; OK (Container x)
  | StructValue => x <- structValue v ;; OK (Container x)
  end.

Definition held_data (v : TValue) : held :=
  match v with
  | TBase _ p => Payload p
  | _ => Container v
  end.

(** A scalar with a payload, a list, a set, a map or a struct. *)
Definition concrete_variant (v : TValue) : bool :=
  match v with
  | TNullRef => false
  | TBase t (Some _) => is_scalar_tag t
  | TBase _ None => false
  | _ => true
  end.

(** A scalar whose payload is absent. *)
Definition unset_scalar (v : TValue) : bool :=
  match v with
  | TBase t None => is_scalar_tag t
  | _ => false
  end.

Definition invalid_data {A} (r : result A) : Prop :=
  exists message, r = Throw (TProtocolException INVALID_DATA message).

(** ** Structs

    The fields of a struct are an object: no two of its properties have
    the same name. *)
Fixpoint distinct (names : list string) : bool :=
  match names with
  | [] => true
  | k :: rest => negb (existsb (String.eqb k) rest) && distinct rest
  end.

(** The decimal numeral of an integer. *)
Definition numeral (z : Z) : string := NilZero.string_of_int (Z.to_int z).

(** ** Trees that survive the wire *)

Definition payload_fits (t : TType) (p : prim) : bool :=
  match scalar_kind_of t, p with
  | Some KBoolean, PBool _ => true
  | Some KNumber, PNum n => negb (isNaN n)
  | Some KString, PStr _ => true
  | _, _ => false
  end.

Definition has_tag (t : TType) (v : TValue) : bool :=
  match valueType v with
  | OK t' => TType_eqb t' t
  | Throw _ => false
  end.

(** The names of an object in the order [for ... in] gives them, without
    repetition: array indices ascending, then the other names. *)
Fixpoint enumeration_order (names : list string) : bool :=
  match names with
  | [] => true
  | k :: rest =>
      match array_index k with
      | Some n =>
          forallb (fun k' => match array_index k' with
                             | Some n' => n <? n'
                             | None => true
                             end) rest
      | None =>
          forallb (fun k' => match array_index k' with
                             | Some _ => false
                             | None => negb (String.eqb k' k)
                             end) rest
      end && enumeration_order rest
  end.

(** A map key the wire keeps: a STRING scalar holding a property name
    that an assignment can create. *)
Definition key_name (k : TValue) : option string :=
  match k with
  | TBase STRING (Some (PStr s)) =>
      if String.eqb s "__proto__" then None else Some s
  | _ => None
  end.

Definition key_names (items : list TMapEntry) : list string :=
  flat_map (fun e => match key_name (key e) with
                     | Some s => [s]
                     | None => []
                     end) items.

(** A field id: the decimal name of an integer a double holds exactly. *)
Definition is_field_id (id : string) : bool :=
  match parseInt id with
  | Fin m _ =>
      (Z.abs m <=? 9007199254740991)
      && String.eqb (NumberToString (parseInt id)) id
  | _ => false
  end.

(** Every declared tag is in the wire table and is the tag of what it
    declares; scalars hold a payload of their kind, or none; map keys are
    present STRING names in enumeration order (so a map that has entries
    declares key tag STRING); struct fields are keyed by field ids in
    enumeration order. *)
Fixpoint wire_faithful (v : TValue) : bool :=
  match v with
  | TNullRef => false
  | TBase t None => is_scalar_tag t
  | TBase t (Some p) => payload_fits t p
  | TList itemType items | TSet itemType items =>
      in_wire_table itemType
      && forallb (fun x => has_tag itemType x && wire_faithful x) items
  | TMap keyType itemType items =>
      in_wire_table keyType
      && in_wire_table itemType
      && forallb (fun e =>
                    has_tag keyType (key e)
                    && match key_name (key e) with
                       | Some _ => true
                       | None => false
                       end
                    && has_tag itemType (value e)
                    && wire_faithful (value e)) items
      && enumeration_order (key_names items)
  | TStruct fields =>
      forallb (fun kf =>
                 is_field_id (fst kf)
                 && in_wire_table (fieldType (snd kf))
                 && has_tag (fieldType (snd kf)) (field_value (snd kf))
                 && wire_faithful (field_value (snd kf))) fields
      && enumeration_order (map fst fields)
  end.

(** A value whose serialization reads back, under its own tag, as the
    value. *)
Definition survives (v : TValue) : Prop :=
  exists data,
    serializeValue v = OK data /\
    forall t, valueType v = OK t -> deserializeValue t data = OK v.

(** The round trip as one computation. *)
Definition round_trip (v : TValue) : result TValue :=
  t <- valueType v ;;
  data <- serializeValue v ;;
  deserializeValue t data.

(* ===================================================================== *)
(** * The rest of the value classes

    The static constructors of [TBase], the bulk helpers of [TList],
    [TSet] and [TMap], and the getters of [TField] and [TMessage], which
    hand the call to the value they wrap.  A callback is a function that
    may throw. *)

Definition newBool (value : bool) : TValue := TBase BOOL (Some (PBool value)).
Definition newByte (value : number) : TValue := TBase BYTE (Some (PNum value)).
Definition newI08 (value : number) : TValue := TBase I08 (Some (PNum value)).
Definition newI16 (value : number) : TValue := TBase I16 (Some (PNum value)).
Definition newI32 (value : number) : TValue := TBase I32 (Some (PNum value)).
Definition newI64 (value : number) : TValue := TBase I64 (Some (PNum value)).
Definition newDouble (value : number) : TValue :=
  TBase DOUBLE (Some (PNum value)).
Definition newString (value : string) : TValue :=
  TBase STRING (Some (PStr value)).

(** [TProtocolException.throwRequired()] *)
Definition throwRequired {A} : result A :=
  throw INVALID_DATA "missing required field".

(** [TList.map(f)] and [TSet.map(f)], on the [items] of the receiver. *)
Definition TList_map {T} (f : TValue -> result T) (items : list TValue)
  : result (list T) :=
  mapM f items.

Definition TSet_map {T} (f : TValue -> result T) (items : list TValue)
  : result (list T) :=
  mapM f items.

(** [TList.newList(itemType, items, f)] and [TSet.newSet(itemType, items, f)] *)
Definition newList {T} (itemType : TType) (items : list T)
  (f : T -> result TValue) : result TValue :=
  result <- mapM f items ;; OK (TList itemType result).

Definition newSet {T} (itemType : TType) (items : list T)
  (f : T -> result TValue) : result TValue :=
  result <- mapM f items ;; OK (TSet itemType result).

(** [TMap.mapString(fk, fv)]: [result[fk(item.key)] = fv(item.value)] for
    each entry, on an object that starts empty. *)
Definition mapString {V} (fk : TValue -> result string)
  (fv : TValue -> result V) (items : list TMapEntry)
  : result (list (string * V)) :=
  foldM (fun result item =>
           k <- fk (key item) ;;
           x <- fv (value item) ;;
           OK (obj_set k x result))
        items [].

(** [TMap.mapNumber(fk, fv)]: the same loop; the number that [fk] returns
    is converted to a property name by the assignment. *)
Definition mapNumber {V} (fk : TValue -> result number)
  (fv : TValue -> result V) (items : list TMapEntry)
  : result (list (string * V)) :=
  foldM (fun result item =>
           k <- fk (key item) ;;
           x <- fv (value item) ;;
           OK (obj_set (NumberToString k) x result))
        items [].

(** [TMap.newMap(keyType, itemType, items, fk, fv)]: [for (let item in
    items)] gives the property names of [items], which are strings
    whatever [K] is; [items] is given by its enumeration. *)
Definition newMap {V} (keyType itemType : TType)
  (items : list (string * V)) (fk : string -> result TValue)
  (fv : V -> result TValue) : result TValue :=
  result <- mapM (fun item =>
                    k <- fk (fst item) ;;
                    x <- fv (snd item) ;;
                    OK (mkTMapEntry k x))
                 items ;;
  OK (TMap keyType itemType result).

(** The property name that a payload used as a key converts to (a key
    callback such as [k => k.stringValue] returns the payload as it is). *)
Definition payload_name (p : option prim) : string :=
  match p with
  | None => "undefined"
  | Some (PBool b) => if b then "true" else "false"
  | Some (PNum n) => NumberToString n
  | Some (PStr s) => s
  end.

(** The getters of [TField]: [this.value.booleanValue] and so on. *)
Definition TField_booleanValue (f : TField) := booleanValue (field_value f).
Definition TField_numberValue (f : TField) := numberValue (field_value f).
Definition TField_stringValue (f : TField) := stringValue (field_value f).
Definition TField_listValue (f : TField) := listValue (field_value f).
Definition TField_mapValue (f : TField) := mapValue (field_value f).
Definition TField_setValue (f : TField) := setValue (field_value f).
Definition TField_structValue (f : TField) := structValue (field_value f).

(** The getters of [TMessage]. *)
Definition TMessage_booleanValue (m : TMessage) :=
  booleanValue (message_value m).
Definition TMessage_numberValue (m : TMessage) :=
  numberValue (message_value m).
Definition TMessage_stringValue (m : TMessage) :=
  stringValue (message_value m).
Definition TMessage_listValue (m : TMessage) := listValue (message_value m).
Definition TMessage_mapValue (m : TMessage) := mapValue (message_value m).
Definition TMessage_setValue (m : TMessage) := setValue (message_value m).
Definition TMessage_structValue (m : TMessage) :=
  structValue (message_value m).

(* ===================================================================== *)
(** * TApplicationException

    The exception as the two properties [read] and [write] look at, each
    by the value that reading it gives ([None] for [undefined] or [null]).
    The class extends [Error] (class semantics of ES2015):
    [delete this.message] removes the own property and uncovers
    [Error.prototype.message], the empty string; [delete this.code] leaves
    [undefined].  [newI32(this.code as number)] stores whatever [code]
    holds: the cast is not checked. *)

Inductive TApplicationExceptionType : Type :=
| APP_UNKNOWN | UNKNOWN_METHOD | INVALID_MESSAGE_TYPE | WRONG_METHOD_NAME
| BAD_SEQUENCE_ID | MISSING_RESULT | INTERNAL_ERROR | PROTOCOL_ERROR
| INVALID_TRANSFORM | INVALID_PROTOCOL | UNSUPPORTED_CLIENT_TYPE.

Definition TApplicationExceptionType_code (t : TApplicationExceptionType)
  : Z :=
  match t with
  | APP_UNKNOWN => 0 | UNKNOWN_METHOD => 1 | INVALID_MESSAGE_TYPE => 2
  | WRONG_METHOD_NAME => 3 | BAD_SEQUENCE_ID => 4 | MISSING_RESULT => 5
  | INTERNAL_ERROR => 6 | PROTOCOL_ERROR => 7 | INVALID_TRANSFORM => 8
  | INVALID_PROTOCOL => 9 | UNSUPPORTED_CLIENT_TYPE => 10
  end.

Record TApplicationException : Type := mkTApplicationException {
  code : option prim;
  message : option prim
}.

(** [new TApplicationException(code, message)]: [code] defaults to
    UNKNOWN; without a message nothing is stored and [message] reads as
    the empty string. *)
Definition TApplicationException_new (code : option TApplicationExceptionType)
  (message : option string) : TApplicationException :=
  mkTApplicationException
    (Some (PNum (of_Z (TApplicationExceptionType_code
                         match code with Some c => c | None => APP_UNKNOWN end))))
    (Some (PStr match message with Some m => m | None => "" end)).

(** [read(input, data)]: both properties are set or deleted, so the result
    does not depend on what [this] held; [input] is not used. *)
Definition TApplicationException_read (this : TApplicationException)
  (data : list (string * TField)) : result TApplicationException :=
  code <- match getField data (Fin 1 0) I32 with
          | Some field => TField_numberValue field
          | None => OK None
          end ;;
  message <- match getField data (Fin 2 0) STRING with
             | Some field => TField_stringValue field
             | None => OK (Some (PStr ""))
             end ;;
  OK (mkTApplicationException code message).

(** [write(output)]: the struct of the properties that are not [null];
    [output] is not used. *)
Definition TApplicationException_write (this : TApplicationException)
  : result TValue :=
  fields <- match code this with
            | Some c =>
                f <- asField (TBase I32 (Some c)) ;;
                OK (obj_set (NumberToString (Fin 1 0)) f [])
            | None => OK []
            end ;;
  fields <- match message this with
            | Some m =>
                f <- asField (TBase STRING (Some m)) ;;
                OK (obj_set (NumberToString (Fin 2 0)) f fields)
            | None => OK fields
            end ;;
  OK (TStruct fields).

(* ===================================================================== *)
(** * Vocabulary of the further properties *)

(** The payload of a scalar is of the kind of its tag. *)
Definition payload_kind_fits (t : TType) (p : prim) : bool :=
  match scalar_kind_of t, p with
  | Some KBoolean, PBool _ | Some KNumber, PNum _ | Some KString, PStr _ =>
      true
  | _, _ => false
  end.

(** Every declared tag of the tree is a wire tag and is the tag of what it
    declares, and every scalar holds a payload of its kind or none. *)
Fixpoint well_tagged (v : TValue) : bool :=
  match v with
  | TNullRef => false
  | TBase t None => is_scalar_tag t
  | TBase t (Some p) => payload_kind_fits t p
  | TList itemType items | TSet itemType items =>
      in_wire_table itemType
      && forallb (fun x => has_tag itemType x && well_tagged x) items
  | TMap keyType itemType items =>
      in_wire_table keyType
      && in_wire_table itemType
      && forallb (fun e =>
                    has_tag keyType (key e) && well_tagged (key e)
                    && has_tag itemType (value e) && well_tagged (value e))
                 items
  | TStruct fields =>
      forallb (fun kf =>
                 in_wire_table (fieldType (snd kf))
                 && has_tag (fieldType (snd kf)) (field_value (snd kf))
                 && well_tagged (field_value (snd kf))) fields
  end.

(** Every number of the tree is finite. *)
Fixpoint finite_payloads (v : TValue) : bool :=
  match v with
  | TNullRef => true
  | TBase _ (Some (PNum n)) => isFinite n
  | TBase _ _ => true
  | TList _ items | TSet _ items => forallb finite_payloads items
  | TMap _ _ items =>
      forallb (fun e => finite_payloads (key e) && finite_payloads (value e))
              items
  | TStruct fields =>
      forallb (fun kf => finite_payloads (field_value (snd kf))) fields
  end.

(** Data that a JSON text holds as it is: no [undefined], no number that
    is not finite, and objects whose names are in enumeration order. *)
Fixpoint JSON_exact (v : JSValue) : bool :=
  match v with
  | JUndefined => false
  | JNum n => isFinite n
  | JArr items => forallb JSON_exact items
  | JObj props =>
      forallb (fun kx => JSON_exact (snd kx)) props
      && enumeration_order (map fst props)
  | _ => true
  end.

(** A computation whose protocol exceptions, if any, are of kind
    INVALID_DATA. *)
Definition only_invalid_data {A} (r : result A) : Prop :=
  forall kind message,
    r = Throw (TProtocolException kind message) -> kind = INVALID_DATA.

(** Data that holds neither [undefined] nor NaN. *)
Fixpoint json_clean (v : JSValue) : bool :=
  match v with
  | JUndefined => false
  | JNum n => negb (isNaN n)
  | JArr items => forallb json_clean items
  | JObj props => forallb (fun kx => json_clean (snd kx)) props
  | _ => true
  end.

(** Evaluation of the embedding on a closed input. *)
Ltac run := vm_compute; reflexivity.
Ltac raises := unfold invalid_data; eexists; vm_compute; reflexivity.

(* ===================================================================== *)
(** * The recursion of [deserializeValue] *)

Arguments typeOfString : simpl never.
Arguments typeString : simpl never.
Arguments NumberToString : simpl never.
Arguments StringToNumber : simpl never.
Arguments parseInt : simpl never.
Arguments obj_set : simpl never.
Arguments index_name : simpl never.

Lemma mapM_ext_in {A B} (f g : A -> result B) (l : list A) :
  (forall x, In x l -> f x = g x) -> mapM f l = mapM g l.
Proof.
  induction l as [|x l IH]; intros H; simpl; [reflexivity|].
  rewrite (H x (or_introl eq_refl)), IH; [reflexivity|].
  intros y Hy. apply H. right. exact Hy.
Qed.

Lemma foldM_ext_in {A S} (f g : S -> A -> result S) (l : list A) :
  (forall s x, In x l -> f s x = g s x) ->
  forall s, foldM f l s = foldM g l s.
Proof.
  induction l as [|x l IH]; intros H s; simpl; [reflexivity|].
  rewrite (H s x (or_introl eq_refl)).
  destruct (g s x) as [s'|e]; simpl; [|reflexivity].
  apply IH. intros s0 y Hy. apply H. right. exact Hy.
Qed.

Lemma depth_pos v : (1 <= depth v)%nat.
Proof. destruct v; simpl; lia. Qed.

Lemma depth_array items : (2 <= depth (JArr items))%nat.
Proof. simpl. induction items as [|y l IH]; simpl; lia. Qed.

Lemma depth_item x items : In x items -> (depth x < depth (JArr items))%nat.
Proof.
  simpl. induction items as [|y l IH]; simpl; [tauto|].
  intros [->|H]; [lia|]. specialize (IH H). lia.
Qed.

Lemma depth_prop kx props :
  In kx props -> (depth (snd kx) < depth (JObj props))%nat.
Proof.
  simpl. induction props as [|y l IH]; simpl; [tauto|].
  intros [->|H]; [lia|]. specialize (IH H). lia.
Qed.

Lemma in_indexed_from {V} (kx : string * V) l :
  forall i, In kx (indexed_from i l) -> In (snd kx) l.
Proof.
  induction l as [|y l IH]; simpl; intros i; [tauto|].
  intros [<-|H]; [left; reflexivity|right; exact (IH _ H)].
Qed.

(** What [for ... in] hands to the loop body is one level down, except for
    the characters of a string. *)
Lemma for_in_depth kx d :
  In kx (for_in d) ->
  (depth (snd kx) < depth d)%nat \/
  (exists s c, d = JStr s /\ snd kx = JStr (String c "")).
Proof.
  destruct d as [| | | |s|items|props]; simpl; try tauto; intros H.
  - right. apply in_indexed_from in H. unfold string_chars in H.
    apply in_map_iff in H. destruct H as [c [Hc _]].
    exists s, c. split; [reflexivity|symmetry; exact Hc].
  - left. apply in_indexed_from in H. exact (depth_item _ _ H).
  - left. exact (depth_prop _ _ H).
Qed.

Lemma for_in_depth_le kx d :
  In kx (for_in d) -> (depth (snd kx) <= depth d)%nat.
Proof.
  intros H. destruct (for_in_depth _ _ H) as [H1|[s [c [-> ->]]]];
    simpl; lia.
Qed.

Lemma depth_shift l x l' :
  shift l = (x, l') ->
  (depth x < depth (JArr l))%nat /\
  (forall y, In y l' -> In y l).
Proof.
  destruct l as [|y l]; simpl; intros H; inversion H; subst; simpl.
  - split; [|tauto]. pose proof (depth_array []). simpl in *. lia.
  - split; [lia|]. intros z Hz. right. exact Hz.
Qed.

Lemma sequence_ext f g what make v :
  (forall t x, (depth x < depth v)%nat -> f t x = g t x) ->
  deserialize_sequence f what make v = deserialize_sequence g what make v.
Proof.
  intros H. unfold deserialize_sequence.
  destruct v as [| | | |s|items|props]; try reflexivity.
  destruct (shift items) as [t l1] eqn:E1.
  destruct (shift l1) as [size data] eqn:E2.
  destruct (depth_shift _ _ _ E1) as [_ H1].
  destruct (depth_shift _ _ _ E2) as [_ H2].
  destruct (if truthy (JArr items) then _ else _) as [[|]|e]; simpl;
    try reflexivity.
  destruct (typeOfString t) as [itemType|e]; simpl; [|reflexivity].
  rewrite (mapM_ext_in (f itemType) (g itemType) data); [reflexivity|].
  intros x Hx. apply H. apply depth_item. auto.
Qed.

Lemma typeOfString_index_0 : exists e, typeOfString (JStr (index_name 0)) = Throw e.
Proof. eexists. vm_compute. reflexivity. Qed.

(** The body looks at [self] only one level down. *)
Lemma deserializeValue_body_ext f g valueType v :
  (forall t x, (depth x < depth v)%nat -> f t x = g t x) ->
  deserializeValue_body f valueType v = deserializeValue_body g valueType v.
Proof.
  intros H.
  destruct valueType; try reflexivity; unfold deserializeValue_body.
  - (* STRUCT *)
    destruct (negb (truthy v)); [reflexivity|].
    match goal with
    | |- bind ?a _ = bind ?b _ => assert (E : a = b); [|rewrite E; reflexivity]
    end.
    apply foldM_ext_in. intros fields [id inner] Hin.
    apply foldM_ext_in. intros fields' [type x] Hx. simpl.
    destruct (for_in_depth _ _ Hin) as [Hd|[s [c [-> Hc]]]]; simpl in *.
    + pose proof (for_in_depth_le _ _ Hx) as Hle. simpl in Hle.
      destruct (typeOfString (JStr type)) as [ft|e]; simpl; [|reflexivity].
      rewrite (H ft x); [reflexivity|lia].
    + subst inner. simpl in Hx. destruct Hx as [Hx|[]].
      inversion Hx; subst.
      destruct typeOfString_index_0 as [e ->]. reflexivity.
  - (* MAP *)
    destruct v as [| | | |s|items|props]; try reflexivity.
    destruct (shift items) as [kt l1] eqn:E1.
    destruct (shift l1) as [it l2] eqn:E2.
    destruct (shift l2) as [size l3] eqn:E3.
    destruct (shift l3) as [data l4] eqn:E4.
    destruct (depth_shift _ _ _ E1) as [_ H1].
    destruct (depth_shift _ _ _ E2) as [_ H2].
    destruct (depth_shift _ _ _ E3) as [_ H3].
    destruct (depth_shift _ _ _ E4) as [H4 _].
    assert (Hdata : (depth data < depth (JArr items))%nat).
    { destruct l3 as [|d l3']; simpl in E4; inversion E4; subst.
      - pose proof (depth_array items). simpl in *. lia.
      - apply depth_item. apply H1, H2, H3. left. reflexivity. }
    destruct (if truthy (JArr items) then _ else _) as [[|]|e]; simpl;
      try reflexivity.
    destruct (typeOfString kt) as [keyType|e]; simpl; [|reflexivity].
    destruct (typeOfString it) as [itemType|e]; simpl; [|reflexivity].
    match goal with
    | |- bind ?a _ = bind ?b _ => assert (E : a = b); [|rewrite E; reflexivity]
    end.
    apply mapM_ext_in. intros [k x] Hx. simpl.
    pose proof (for_in_depth_le _ _ Hx) as Hle. simpl in Hle.
    rewrite (H keyType (JStr k));
      [|change (depth (JStr k)) with 1%nat; pose proof (depth_array items); lia].
    rewrite (H itemType x); [reflexivity|lia].
  - (* SET *) apply sequence_ext. exact H.
  - (* LIST *) apply sequence_ext. exact H.
Qed.

Lemma deserializeValue_upto_stable n :
  forall m valueType v, (depth v <= n)%nat -> (depth v <= m)%nat ->
  deserializeValue_upto n valueType v = deserializeValue_upto m valueType v.
Proof.
  induction n as [|n IH]; intros m valueType v Hn Hm.
  - pose proof (depth_pos v). lia.
  - destruct m as [|m]; [pose proof (depth_pos v); lia|]. simpl.
    apply deserializeValue_body_ext. intros t x Hx. apply IH; lia.
Qed.

(** [deserializeValue] is its body applied to itself: the method as the
    source writes it. *)
Lemma deserializeValue_unfold valueType v :
  deserializeValue valueType v =
  deserializeValue_body deserializeValue valueType v.
Proof.
  unfold deserializeValue at 1.
  destruct (depth v) as [|n] eqn:E; [pose proof (depth_pos v); lia|].
  simpl. apply deserializeValue_body_ext. intros t x Hx.
  unfold deserializeValue. apply deserializeValue_upto_stable; lia.
Qed.

(* ===================================================================== *)
(** * The wire-tag table *)

Lemma TType_eqb_eq a b : TType_eqb a b = true <-> a = b.
Proof.
  unfold TType_eqb. destruct (TType_eq_dec a b); split; congruence.
Qed.

Lemma in_wire_table_spec t :
  in_wire_table t = true <-> In t wire_tags.
Proof.
  unfold in_wire_table. rewrite existsb_exists. split.
  - intros [x [Hx E]]. apply TType_eqb_eq in E. subst. exact Hx.
  - intros H. exists t. split; [exact H|]. apply TType_eqb_eq. reflexivity.
Qed.

(** Every tag of the table has a wire string, and the string reads back as
    the tag (for any tag, not only by enumeration). *)
Lemma typeString_inverse t :
  in_wire_table t = true ->
  exists s, typeString t = OK s /\ typeOfString (JStr s) = OK t
            /\ forall V (x : V), obj_set s x [] = [(s, x)].
Proof.
  destruct t; intros H; try discriminate H; eexists; repeat split.
Qed.

Lemma typeString_wire_only t s :
  typeString t = OK s -> in_wire_table t = true.
Proof. destruct t; intros H; try discriminate H; reflexivity. Qed.

Lemma bind_throw_not_OK {A B} (c : result A) (e : exn) (b : B) :
  bind c (fun _ => Throw e) <> OK b.
Proof. destruct c; simpl; discriminate. Qed.

Lemma typeOfString_wire_only x t :
  typeOfString x = OK t -> in_wire_table t = true.
Proof.
  unfold typeOfString, throw. destruct x;
    try (intros H; exfalso; exact (bind_throw_not_OK _ _ _ H)).
  repeat match goal with
         | |- (if ?b then _ else _) = _ -> _ => destruct b
         end; intros H;
    try (exfalso; exact (bind_throw_not_OK _ _ _ H));
    inversion H; reflexivity.
Qed.

(** C5. For each of the eleven tags of the wire table (BOOL, I08/BYTE, I16,
    I32, I64, DOUBLE, STRING, LIST, MAP, SET, STRUCT), decoding the wire
    string that [typeString] gives for the tag gives the tag back:
    [typeOfString(typeString(t)) == t]. *)
Theorem typeOfString_typeString :
  List.length wire_tags = 11%nat /\
  Forall (fun t => (s <- typeString t ;; typeOfString (JStr s)) = OK t)
         wire_tags.
Proof. split; [reflexivity|]. repeat constructor. Qed.

(* ===================================================================== *)
(** * The typed getters *)

Lemma accessor_eq_dec (a b : accessor) : {a = b} + {a <> b}.
Proof. decide equality. Qed.

(** The getter that belongs to a value. *)
Lemma own_accessor v :
  concrete_variant v = true \/ unset_scalar v = true ->
  exists a, access a v = OK (held_data v) /\
            forall a', a' <> a -> invalid_data (access a' v).
Proof.
  intros H.
  assert (Hv : match v with
               | TNullRef => False
               | TBase t _ => is_scalar_tag t = true
               | _ => True
               end).
  { destruct v as [|t [p|]| | | |]; simpl in H; try exact I;
      destruct H as [H|H]; try discriminate H; exact H. }
  clear H.
  destruct v as [|t p|it l|kt it l|it l|fs]; [contradiction| | | | | ].
  - destruct t; try discriminate Hv;
      [exists BooleanValue | exists NumberValue | exists NumberValue
      | exists NumberValue | exists NumberValue | exists NumberValue
      | exists StringValue | exists StringValue | exists StringValue];
      (split; [reflexivity|]);
      intros [] Ha; try congruence; eexists; reflexivity.
  - exists ListValue. split; [reflexivity|].
    intros [] Ha; try congruence; eexists; reflexivity.
  - exists MapValue. split; [reflexivity|].
    intros [] Ha; try congruence; eexists; reflexivity.
  - exists SetValue. split; [reflexivity|].
    intros [] Ha; try congruence; eexists; reflexivity.
  - exists StructValue. split; [reflexivity|].
    intros [] Ha; try congruence; eexists; reflexivity.
Qed.

(** C6. For each concrete variant (a scalar whose payload is present, a
    list, a set, a map, a struct), exactly one of the seven typed getters
    succeeds, and it returns the held data; each of the other six raises a
    protocol exception of kind INVALID_DATA. *)
Theorem accessor_exclusivity v :
  concrete_variant v = true ->
  exists a, access a v = OK (held_data v) /\
            forall a', a' <> a -> invalid_data (access a' v).
Proof. intros H. apply own_accessor. left. exact H. Qed.

Lemma accessor_exclusivity_witness :
  concrete_variant (TList I32 [TBase I32 (Some (PNum (Fin 7 0)))]) = true /\
  exists a,
    access a (TList I32 [TBase I32 (Some (PNum (Fin 7 0)))])
    = OK (held_data (TList I32 [TBase I32 (Some (PNum (Fin 7 0)))])) /\
    forall a', a' <> a ->
      invalid_data (access a' (TList I32 [TBase I32 (Some (PNum (Fin 7 0)))])).
Proof.
  split; [reflexivity|].
  apply (accessor_exclusivity (TList I32 [TBase I32 (Some (PNum (Fin 7 0)))])).
  reflexivity.
Defined.

(** C10. For a scalar whose payload is absent, the getter matching its
    tag does not raise and returns the absent payload itself:
    [booleanValue] for BOOL, [numberValue] for BYTE/I08, I16, I32, I64 and
    DOUBLE, [stringValue] for STRING/UTF7, UTF8 and UTF16; each of the six
    other getters raises INVALID_DATA. *)
Theorem unset_scalar_getters t :
  is_scalar_tag t = true ->
  let v := TBase t None in
  match t with
  | BOOL =>
      booleanValue v = OK None
      /\ invalid_data (numberValue v) /\ invalid_data (stringValue v)
  | I08 | I16 | I32 | I64 | DOUBLE =>
      numberValue v = OK None
      /\ invalid_data (booleanValue v) /\ invalid_data (stringValue v)
  | STRING | UTF8 | UTF16 =>
      stringValue v = OK None
      /\ invalid_data (booleanValue v) /\ invalid_data (numberValue v)
  | _ => False
  end
  /\ invalid_data (listValue v) /\ invalid_data (mapValue v)
  /\ invalid_data (setValue v) /\ invalid_data (structValue v).
Proof.
  intros H v. subst v.
  destruct t; try discriminate H; cbv beta iota;
    repeat split; try reflexivity; eexists; reflexivity.
Qed.

Lemma unset_scalar_getters_witness :
  is_scalar_tag I64 = true /\
  (numberValue (TBase I64 None) = OK None
   /\ invalid_data (booleanValue (TBase I64 None))
   /\ invalid_data (stringValue (TBase I64 None)))
  /\ invalid_data (listValue (TBase I64 None))
  /\ invalid_data (mapValue (TBase I64 None))
  /\ invalid_data (setValue (TBase I64 None))
  /\ invalid_data (structValue (TBase I64 None)).
Proof.
  split; [reflexivity|].
  apply (unset_scalar_getters I64). reflexivity.
Defined.

(* ===================================================================== *)
(** * Struct lookup *)

Lemma existsb_name {V} k (v : V) o :
  In (k, v) o -> existsb (String.eqb k) (map fst o) = true.
Proof.
  intros H. apply existsb_exists. exists k. split.
  - apply in_map_iff. exists (k, v). auto.
  - apply String.eqb_refl.
Qed.

(** In an object, reading a property finds the value held under the
    name. *)
Lemma get_own_distinct {V} k (o : list (string * V)) v :
  distinct (map fst o) = true ->
  get_own k o = Some v <-> In (k, v) o.
Proof.
  induction o as [|[k0 v0] o IH]; simpl.
  - intros _. split; [discriminate|contradiction].
  - intros H. apply andb_true_iff in H. destruct H as [Hnew Hrest].
    destruct (String.eqb k0 k) eqn:E.
    + apply String.eqb_eq in E. subst k0. split.
      * intros Hv. inversion Hv. left. reflexivity.
      * intros [Hv|Hin]; [inversion Hv; reflexivity|].
        apply existsb_name in Hin. rewrite Hin in Hnew. discriminate Hnew.
    + split.
      * intros Hv. right. apply IH; assumption.
      * intros [Hv|Hin]; [|apply IH; assumption].
        inversion Hv; subst. rewrite String.eqb_refl in E. discriminate E.
Qed.

Lemma strip_zeros_spec l :
  l = (repeat "0"%char (fst (strip_zeros l)) ++ snd (strip_zeros l))%list.
Proof.
  induction l as [|c l IH]; [reflexivity|].
  destruct (ascii_dec c "0"%char) as [->|Hc].
  - simpl. destruct (strip_zeros l) as [z r]. simpl in *. rewrite <- IH.
    reflexivity.
  - assert (Hs : strip_zeros (c :: l) = (O, c :: l)).
    { destruct c as [[] [] [] [] [] [] [] []]; try reflexivity.
      contradiction Hc. reflexivity. }
    rewrite Hs. reflexivity.
Qed.

Lemma rev_repeat {A} (a : A) n : rev (repeat a n) = repeat a n.
Proof.
  induction n as [|n IH]; [reflexivity|].
  simpl. rewrite IH. clear IH.
  induction n as [|n IH]; [reflexivity|]. simpl. rewrite IH. reflexivity.
Qed.

(** [Number::toString] prints a positive integer of at most 21 digits as
    its digits. *)
Lemma NumberToString_digits p :
  (String.length (NilZero.string_of_uint (Pos.to_uint p)) <= 21)%nat ->
  forall negative,
    NumberToString (Fin (if negative : bool then Z.neg p else Z.pos p) 0)
    = if negative
      then String "-" (NilZero.string_of_uint (Pos.to_uint p))
      else NilZero.string_of_uint (Pos.to_uint p).
Proof.
  intros Hlen negative. unfold NumberToString.
  set (text := NilZero.string_of_uint (Pos.to_uint p)) in *.
  assert (Hm : ((if negative then Z.neg p else Z.pos p) =? 0) = false)
    by (destruct negative; reflexivity).
  rewrite Hm.
  assert (Hd : digits_of_N (Z.abs_N (if negative then Z.neg p else Z.pos p))
               = list_ascii_of_string text)
    by (destruct negative; reflexivity).
  rewrite Hd.
  pose proof (strip_zeros_spec (rev (list_ascii_of_string text))) as Hs.
  destruct (strip_zeros (rev (list_ascii_of_string text))) as [z rs].
  simpl fst in Hs. simpl snd in Hs.
  assert (Hds : list_ascii_of_string text = (rev rs ++ repeat "0"%char z)%list).
  { rewrite <- (rev_involutive (list_ascii_of_string text)), Hs, rev_app_distr,
      rev_repeat. reflexivity. }
  assert (Hl : (List.length (rev rs) + z <= 21)%nat).
  { rewrite <- (repeat_length "0"%char z), <- length_app, <- Hds.
    rewrite <- (string_of_list_ascii_of_string text) in Hlen.
    rewrite <- Hlen. clear.
    induction (list_ascii_of_string text); simpl; [lia|].
    apply le_n_S. assumption. }
  cbv zeta.
  replace (Z.of_nat (List.length (rev rs)) <=?
           Z.of_nat (List.length (rev rs)) + (0 + Z.of_nat z)) with true
    by (symmetry; apply Z.leb_le; lia).
  replace (Z.of_nat (List.length (rev rs)) + (0 + Z.of_nat z) <=? 21)
    with true by (symmetry; apply Z.leb_le; lia).
  cbv [andb]. unfold zeros.
  replace (Z.to_nat (Z.of_nat (List.length (rev rs)) + (0 + Z.of_nat z)
                     - Z.of_nat (List.length (rev rs)))) with z by lia.
  rewrite <- Hds.
  destruct negative; simpl; rewrite string_of_list_ascii_of_string;
    reflexivity.
Qed.

Lemma NumberToString_integer z :
  (String.length (numeral (Z.abs z)) <= 21)%nat ->
  NumberToString (of_Z z) = numeral z.
Proof.
  destruct z as [|p|p]; intros H; [reflexivity| |].
  - exact (NumberToString_digits p H false).
  - exact (NumberToString_digits p H true).
Qed.



(** Field 2 of that struct is found under the name "2" when STRING is
    expected, and not when I32 is. *)
Lemma getField_by_id_and_type :
  getField [("1", mkTField I32 (TBase I32 (Some (PNum (Fin 7 0)))));
            ("2", mkTField STRING (TBase STRING None))]
    (of_Z 2) STRING
  = Some (mkTField STRING (TBase STRING None))
  /\ getField [("1", mkTField I32 (TBase I32 (Some (PNum (Fin 7 0)))));
               ("2", mkTField STRING (TBase STRING None))]
       (of_Z 2) I32
     = None
  /\ getField [("1", mkTField I32 (TBase I32 (Some (PNum (Fin 7 0)))));
               ("2", mkTField STRING (TBase STRING None))]
       (of_Z 3) STRING
     = None
  /\ numeral 2 = "2".
Proof. repeat split. Qed.

(* ===================================================================== *)
(** * Scalars *)

Lemma deserialize_absent t v :
  is_scalar_tag t = true -> isNull v = true ->
  deserializeValue t v = OK (TBase t None).
Proof.
  intros Ht Hv. rewrite deserializeValue_unfold.
  destruct t; try discriminate Ht; simpl; rewrite Hv; reflexivity.
Qed.

Lemma deserialize_boolean v :
  isNull v = false ->
  deserializeValue BOOL v = OK (TBase BOOL (Some (PBool (truthy v)))).
Proof.
  intros Hv. rewrite deserializeValue_unfold. simpl. rewrite Hv. reflexivity.
Qed.

Lemma deserialize_number t n :
  scalar_kind_of t = Some KNumber ->
  deserializeValue t (JNum n) = OK (TBase t (Some (PNum n))).
Proof.
  intros Ht. rewrite deserializeValue_unfold.
  destruct t; try discriminate Ht; reflexivity.
Qed.

Lemma deserialize_string t s :
  scalar_kind_of t = Some KString ->
  deserializeValue t (JStr s) = OK (TBase t (Some (PStr s))).
Proof.
  intros Ht. rewrite deserializeValue_unfold.
  destruct t; try discriminate Ht; reflexivity.
Qed.

(** With tag BOOL a number and a string are accepted and turned into a
    boolean: no type check, no INVALID_DATA. *)
Lemma deserialize_BOOL_coerces :
  deserializeValue BOOL (JNum (Fin 1 0)) = OK (TBase BOOL (Some (PBool true)))
  /\ deserializeValue BOOL (JStr "no") = OK (TBase BOOL (Some (PBool true)))
  /\ ~ invalid_data (deserializeValue BOOL (JStr "no")).
Proof.
  repeat split; try run.
  intros [message H]. vm_compute in H. discriminate H.
Qed.

(** C2, as the code has it.  For every input that is not absent: with a
    numeric tag a number is required and with a string tag a string, and
    any other JSON type raises INVALID_DATA, nothing being converted; with
    tag BOOL there is no type check: every input is accepted and converted
    to a boolean by its truthiness. *)
Theorem scalar_payload_check t v :
  isNull v = false ->
  match scalar_kind_of t with
  | Some KBoolean =>
      deserializeValue t v = OK (TBase t (Some (PBool (truthy v))))
  | Some KNumber =>
      match v with
      | JNum n => deserializeValue t v = OK (TBase t (Some (PNum n)))
      | _ => invalid_data (deserializeValue t v)
      end
  | Some KString =>
      match v with
      | JStr s => deserializeValue t v = OK (TBase t (Some (PStr s)))
      | _ => invalid_data (deserializeValue t v)
      end
  | None => True
  end.
Proof.
  intros Hv. unfold invalid_data. rewrite deserializeValue_unfold.
  destruct t; simpl; try exact I; rewrite Hv;
    destruct v; try discriminate Hv; try reflexivity; eexists; reflexivity.
Qed.

Lemma scalar_payload_check_witness :
  isNull (JStr "7") = false /\
  invalid_data (deserializeValue I32 (JStr "7")).
Proof.
  split; [reflexivity|].
  exact (scalar_payload_check I32 (JStr "7") eq_refl).
Defined.

(* ===================================================================== *)
(** * The string family *)

Lemma string_family_payload t s :
  scalar_kind_of t = Some KString ->
  serializeValue (TBase t (Some (PStr s))) = OK (JStr s).
Proof. destruct t; intros H; try discriminate H; reflexivity. Qed.

(** C3, at the inputs where the code leaves it.  A UTF8 or UTF16 scalar
    serializes like a STRING scalar, and STRING and UTF7 map to the wire
    string [str]; but [typeString] has no case for UTF8 and UTF16: a list
    of UTF8 items, or a struct field made by [asField] from a UTF16
    scalar, cannot be serialized. *)
Theorem UTF8_UTF16_without_wire_string :
  serializeValue (TBase UTF8 (Some (PStr "a"))) = OK (JStr "a")
  /\ serializeValue (TBase UTF16 (Some (PStr "a"))) = OK (JStr "a")
  /\ typeString STRING = OK "str"
  /\ typeString UTF7 = OK "str"
  /\ invalid_data (typeString UTF8)
  /\ invalid_data (typeString UTF16)
  /\ invalid_data
       (serializeValue (TList UTF8 [TBase UTF8 (Some (PStr "a"))]))
  /\ invalid_data
       (f <- asField (TBase UTF16 (Some (PStr "a"))) ;;
        serializeValue (TStruct [("1", f)])).
Proof. repeat split; try run; raises. Qed.

(* ===================================================================== *)
(** * Maps *)

Lemma loose_neq_same n :
  loose_neq (JNum (of_nat n)) (of_nat n) = OK false.
Proof.
  unfold loose_neq, of_nat, num_eqb, num_compare, fin_compare. simpl.
  rewrite Z.compare_refl. reflexivity.
Qed.

Lemma mapM_length {A B} (f : A -> result B) l l' :
  mapM f l = OK l' -> List.length l' = List.length l.
Proof.
  revert l'. induction l as [|x l IH]; simpl; intros l' H.
  - inversion H. reflexivity.
  - destruct (f x); simpl in H; [|discriminate H].
    destruct (mapM f l); simpl in H; [|discriminate H].
    inversion H. simpl. f_equal. apply IH. reflexivity.
Qed.

(** Decoding of a four-element array whose key tag reads as [keyType]. *)
Lemma deserialize_map_entries kt keyType it size props :
  typeOfString kt = OK keyType ->
  deserializeValue MAP (JArr [kt; it; size; JObj props]) =
  (itemType <- typeOfString it ;;
   items <- mapM (fun kx =>
                    k <- deserializeValue keyType (JStr (fst kx)) ;;
                    x <- deserializeValue itemType (snd kx) ;;
                    OK (mkTMapEntry k x)) props ;;
   differs <- loose_neq size (of_nat (List.length items)) ;;
   if (differs : bool) then throw INVALID_DATA "map size mismatch: "
   else OK (TMap keyType itemType items)).
Proof.
  intros Hkt. rewrite deserializeValue_unfold.
  unfold deserializeValue_body. simpl. rewrite Hkt. reflexivity.
Qed.

(** With declared key tag BOOL the key comes out BOOL-tagged, and with a
    numeric key tag decoding stops: the key is not a string-typed value
    whatever the declared key tag. *)
Lemma map_key_follows_key_tag :
  deserializeValue MAP
    (JArr [JStr "tf"; JStr "i32"; JNum (Fin 1 0);
           JObj [("a", JNum (Fin 2 0))]])
  = OK (TMap BOOL I32
          [mkTMapEntry (TBase BOOL (Some (PBool true)))
                       (TBase I32 (Some (PNum (Fin 2 0))))])
  /\ valueType (TBase BOOL (Some (PBool true))) = OK BOOL
  /\ stringValue (TBase BOOL (Some (PBool true)))
     = Throw (TProtocolException INVALID_DATA "expected string value")
  /\ invalid_data
       (deserializeValue MAP
          (JArr [JStr "i32"; JStr "i32"; JNum (Fin 1 0);
                 JObj [("1", JNum (Fin 2 0))]])).
Proof. repeat split; try run; raises. Qed.

(** C4, as the code has it.  When a map is deserialized every property
    name is decoded with the declared key tag, applied to the name as a
    JSON string: under key tag STRING it becomes a STRING scalar holding
    the name, under key tag BOOL a BOOL scalar telling whether the name is
    non-empty; every property value is decoded using the declared value
    tag. *)
Theorem map_entries_decoded it size props :
  deserializeValue MAP (JArr [JStr "str"; it; size; JObj props]) =
  (itemType <- typeOfString it ;;
   items <- mapM (fun kx =>
                    x <- deserializeValue itemType (snd kx) ;;
                    OK (mkTMapEntry (TBase STRING (Some (PStr (fst kx)))) x))
                 props ;;
   differs <- loose_neq size (of_nat (List.length items)) ;;
   if (differs : bool) then throw INVALID_DATA "map size mismatch: "
   else OK (TMap STRING itemType items))
  /\
  deserializeValue MAP (JArr [JStr "tf"; it; size; JObj props]) =
  (itemType <- typeOfString it ;;
   items <- mapM (fun kx =>
                    x <- deserializeValue itemType (snd kx) ;;
                    OK (mkTMapEntry
                          (TBase BOOL
                             (Some (PBool (negb (String.eqb (fst kx) "")))))
                          x))
                 props ;;
   differs <- loose_neq size (of_nat (List.length items)) ;;
   if (differs : bool) then throw INVALID_DATA "map size mismatch: "
   else OK (TMap BOOL itemType items)).
Proof.
  split.
  - rewrite (deserialize_map_entries _ STRING) by reflexivity.
    destruct (typeOfString it) as [itemType|e]; reflexivity.
  - rewrite (deserialize_map_entries _ BOOL) by reflexivity.
    destruct (typeOfString it) as [itemType|e]; reflexivity.
Qed.

(* ===================================================================== *)
(** * Lists and sets *)

Lemma num_compare_of_nat n m :
  num_compare (of_nat n) (of_nat m) = Some (Nat.compare n m).
Proof.
  unfold of_nat, num_compare, fin_compare. simpl.
  rewrite !Z.mul_1_r, Nat2Z.inj_compare. reflexivity.
Qed.

Lemma less_than_length n m :
  less_than (JNum (of_nat n)) (of_nat m) = OK (n <? m)%nat.
Proof.
  unfold less_than, num_ltb, ToNumber, bind. rewrite num_compare_of_nat.
  destruct (Nat.compare_spec n m) as [H|H|H];
    symmetry; f_equal; [apply Nat.ltb_ge|apply Nat.ltb_lt|apply Nat.ltb_ge];
    lia.
Qed.

Lemma loose_neq_length n m :
  loose_neq (JNum (of_nat n)) (of_nat m) = OK (negb (n =? m)%nat).
Proof.
  unfold loose_neq, num_eqb, ToNumber, bind, isNull.
  rewrite num_compare_of_nat.
  destruct (Nat.compare_spec n m) as [H|H|H]; f_equal.
  - subst. rewrite Nat.eqb_refl. reflexivity.
  - symmetry. apply negb_true_iff, Nat.eqb_neq. lia.
  - symmetry. apply negb_true_iff, Nat.eqb_neq. lia.
Qed.

Section sequences.
Variable what : string.
Variable make : TType -> list TValue -> TValue.

(** An absent input and an array of fewer than two elements are
    refused. *)
Lemma sequence_absent v :
  isNull v = true ->
  deserialize_sequence deserializeValue what make v
  = Throw (TProtocolException INVALID_DATA (what ++ " expected: ")).
Proof. destruct v; intros H; try discriminate H; reflexivity. Qed.

Lemma sequence_short items :
  (List.length items < 2)%nat ->
  deserialize_sequence deserializeValue what make (JArr items)
  = Throw (TProtocolException INVALID_DATA (what ++ " expected: ")).
Proof.
  intros H. unfold deserialize_sequence.
  change (length_of (JArr items)) with (JNum (of_nat (List.length items))).
  change (Fin 2 0) with (of_nat 2). rewrite less_than_length. simpl.
  apply Nat.ltb_lt in H. rewrite H. reflexivity.
Qed.

(** An array of two elements or more: the tag, the count, the items. *)
Lemma sequence_decoded t size data :
  deserialize_sequence deserializeValue what make
    (JArr (t :: size :: data)) =
  (itemType <- typeOfString t ;;
   items <- mapM (deserializeValue itemType) data ;;
   differs <- loose_neq size (of_nat (List.length items)) ;;
   if (differs : bool)
   then throw INVALID_DATA (what ++ " size mismatch: ")
   else OK (make itemType items)).
Proof.
  unfold deserialize_sequence.
  change (length_of (JArr (t :: size :: data)))
    with (JNum (of_nat (S (S (List.length data))))).
  change (Fin 2 0) with (of_nat 2). rewrite less_than_length.
  reflexivity.
Qed.

(** When the items decode and their number is not the declared count,
    the result is INVALID_DATA. *)
Lemma sequence_size_mismatch t itemType size data items :
  typeOfString t = OK itemType ->
  mapM (deserializeValue itemType) data = OK items ->
  loose_neq size (of_nat (List.length items)) = OK true ->
  deserialize_sequence deserializeValue what make
    (JArr (t :: size :: data))
  = Throw (TProtocolException INVALID_DATA (what ++ " size mismatch: ")).
Proof.
  intros Ht Hitems Hsize. rewrite sequence_decoded, Ht. simpl.
  rewrite Hitems. simpl. rewrite Hsize. reflexivity.
Qed.
End sequences.

Lemma deserialize_LIST v :
  deserializeValue LIST v
  = deserialize_sequence deserializeValue "list" TList v.
Proof. rewrite deserializeValue_unfold. reflexivity. Qed.

Lemma deserialize_SET v :
  deserializeValue SET v
  = deserialize_sequence deserializeValue "set" TSet v.
Proof. rewrite deserializeValue_unfold. reflexivity. Qed.

(** The example of the specification: declared count 3, two items. *)
Lemma list_declared_3_holds_2 :
  deserializeValue LIST
    (JArr [JStr "i32"; JNum (Fin 3 0); JNum (Fin 1 0); JNum (Fin 2 0)])
  = Throw (TProtocolException INVALID_DATA "list size mismatch: ").
Proof. run. Qed.

(** C8, at the inputs where the code leaves it.  The guard
    [!list || list.length < 2] stops [null] and short arrays, but a truthy
    input that is no array has no [length] below 2 and passes it: the
    number 5, an object, [true] or a two-character string reach
    [list.shift()], and what is raised is a TypeError, not a protocol
    exception.  [readStruct] meets the case on the text
    [{"1":{"lst":5}}]. *)
Theorem sequence_guard_passes_non_arrays :
  deserializeValue LIST (JNum (Fin 5 0))
  = Throw (TypeError "list.shift is not a function")
  /\ deserializeValue SET (JNum (Fin 5 0))
     = Throw (TypeError "set.shift is not a function")
  /\ deserializeValue LIST (JObj [])
     = Throw (TypeError "list.shift is not a function")
  /\ deserializeValue LIST (JBool true)
     = Throw (TypeError "list.shift is not a function")
  /\ deserializeValue LIST (JStr "ab")
     = Throw (TypeError "list.shift is not a function")
  /\ readStruct (JObj [("1", JObj [("lst", JNum (Fin 5 0))])])
     = Throw (TypeError "list.shift is not a function")
  /\ ~ invalid_data (deserializeValue LIST (JNum (Fin 5 0))).
Proof.
  repeat split; try run.
  intros [message H]. vm_compute in H. discriminate H.
Qed.

(* ===================================================================== *)
(** * Messages *)

Lemma readMessage_wrong_length items :
  List.length items <> 5%nat ->
  readMessage (JArr items)
  = Throw (TProtocolException INVALID_DATA "illegal data format").
Proof.
  intros H. unfold readMessage.
  change (length_of (JArr items)) with (JNum (of_nat (List.length items))).
  change (Fin 5 0) with (of_nat 5). rewrite loose_neq_length. simpl.
  apply Nat.eqb_neq in H. rewrite H. reflexivity.
Qed.

Lemma readMessage_absent v :
  truthy v = false ->
  readMessage v
  = Throw (TProtocolException INVALID_DATA "illegal data format").
Proof. intros H. unfold readMessage. rewrite H. reflexivity. Qed.

Lemma readMessage_frame version name messageType seqid value :
  readMessage (JArr [version; name; messageType; seqid; value]) =
  (differs <- loose_neq version VERSION ;;
   if (differs : bool) then throw BAD_VERSION "unsupported version ("
   else payload <- deserializeValue STRUCT value ;;
        OK (mkTMessage name messageType seqid payload)).
Proof. reflexivity. Qed.

Lemma readMessage_version_number n name messageType seqid value :
  num_eqb n VERSION = false ->
  readMessage (JArr [JNum n; name; messageType; seqid; value])
  = Throw (TProtocolException BAD_VERSION "unsupported version (").
Proof.
  intros H. rewrite readMessage_frame. unfold loose_neq. simpl.
  rewrite H. reflexivity.
Qed.

(** The example of the specification: version 2. *)
Lemma message_version_2 :
  readMessage
    (JArr [JNum (Fin 2 0); JStr "ping"; JNum (Fin 1 0); JNum (Fin 42 0);
           JObj []])
  = Throw (TProtocolException BAD_VERSION "unsupported version (").
Proof. run. Qed.

(** C9, at the inputs where the code leaves it.  The format check
    [!data || data.length != 5] reads [length] from whatever was parsed:
    a string of five characters passes it and fails later as BAD_VERSION,
    and an object that has a property [length] equal to 5 is read as a
    message.  Neither is an array of five elements, and neither raises
    INVALID_DATA "illegal data format". *)
Theorem message_format_check_reads_any_length :
  readMessage (JStr "abcde")
  = Throw (TProtocolException BAD_VERSION "unsupported version (")
  /\ readMessage
       (JObj [("0", JNum (Fin 1 0)); ("4", JObj []);
              ("length", JNum (Fin 5 0))])
     = OK (mkTMessage JUndefined JUndefined JUndefined (TStruct []))
  /\ readMessage
       (JArr [JNum (Fin 1 0); JStr "ping"; JNum (Fin 1 0); JNum (Fin 42 0);
              JObj []])
     = OK (mkTMessage (JStr "ping") (JNum (Fin 1 0)) (JNum (Fin 42 0))
             (TStruct [])).
Proof. repeat split; run. Qed.

(* ===================================================================== *)
(** * Objects built by assignment *)

Lemma enumeration_order_prefix a b :
  enumeration_order (a ++ b) = true -> enumeration_order a = true.
Proof.
  induction a as [|k a IH]; simpl; intros H; [reflexivity|].
  apply andb_true_iff in H. destruct H as [Hk Hrest].
  apply andb_true_iff. split; [|exact (IH Hrest)].
  destruct (array_index k); rewrite forallb_app in Hk;
    apply andb_true_iff in Hk; tauto.
Qed.

(** A name that may follow [names] in an enumeration is new, and when it
    is an array index every earlier name is a smaller index. *)
Lemma enumeration_order_last names k :
  enumeration_order (names ++ [k]) = true ->
  Forall (fun k0 =>
            k0 <> k /\
            match array_index k with
            | Some n => exists n0, array_index k0 = Some n0 /\ n0 < n
            | None => True
            end) names.
Proof.
  induction names as [|k0 names IH]; simpl; intros H; constructor.
  - apply andb_true_iff in H. destruct H as [H _].
    destruct (array_index k0) as [n0|] eqn:E0;
      rewrite forallb_app in H; apply andb_true_iff in H;
      destruct H as [_ H]; simpl in H; rewrite andb_true_r in H.
    + destruct (array_index k) as [n|] eqn:E.
      * apply Z.ltb_lt in H. split; [|eauto].
        intros ->. rewrite E in E0. inversion E0. lia.
      * split; [|exact I]. intros ->. congruence.
    + destruct (array_index k) as [n|] eqn:E; [discriminate H|].
      split; [|exact I]. intros ->.
      rewrite String.eqb_refl in H. discriminate H.
  - apply IH. apply andb_true_iff in H. tauto.
Qed.

Lemma has_own_new {V} k (o : list (string * V)) :
  Forall (fun kv => fst kv <> k) o -> has_own k o = false.
Proof.
  unfold has_own. induction 1 as [|kv o Hk _ IH]; simpl; [reflexivity|].
  apply String.eqb_neq in Hk. rewrite Hk, IH. reflexivity.
Qed.

Lemma insert_index_last {V} n k (v : V) o :
  Forall (fun kv => exists n0, array_index (fst kv) = Some n0 /\ n0 < n) o ->
  insert_index n k v o = (o ++ [(k, v)])%list.
Proof.
  induction 1 as [|[k0 v0] o [n0 [E Hlt]] _ IH]; simpl; [reflexivity|].
  simpl in E. rewrite E. apply Z.ltb_lt in Hlt. rewrite Hlt, IH.
  reflexivity.
Qed.

(** An assignment that follows the enumeration order appends. *)
Lemma obj_set_appends {V} k (v : V) o :
  k <> "__proto__" ->
  enumeration_order (map fst o ++ [k]) = true ->
  obj_set k v o = (o ++ [(k, v)])%list.
Proof.
  intros Hproto H. apply enumeration_order_last in H.
  rewrite Forall_map in H.
  unfold obj_set. apply String.eqb_neq in Hproto. rewrite Hproto.
  rewrite has_own_new.
  - destruct (array_index k) as [n|]; [|reflexivity].
    apply insert_index_last. revert H. apply Forall_impl. tauto.
  - revert H. apply Forall_impl. tauto.
Qed.

(** A loop of assignments whose keys come in enumeration order builds the
    list of its assignments. *)
Lemma foldM_obj_set {A V} (step : A -> result (string * V)) l :
  forall out pre,
    Forall2 (fun a kv => step a = OK kv /\ fst kv <> "__proto__") l out ->
    enumeration_order (map fst (pre ++ out)) = true ->
    foldM (fun acc a => kv <- step a ;; OK (obj_set (fst kv) (snd kv) acc))
          l pre
    = OK (pre ++ out)%list.
Proof.
  induction l as [|a l IH]; intros out pre Hall Horder;
    inversion Hall as [|a' kv l' out' [Hstep Hproto] Hrest]; subst; simpl.
  - rewrite app_nil_r. reflexivity.
  - rewrite Hstep. simpl.
    assert (Happ : (pre ++ kv :: out' = (pre ++ [kv]) ++ out')%list)
      by (rewrite <- app_assoc; reflexivity).
    rewrite obj_set_appends.
    + rewrite <- surjective_pairing, Happ.
      apply IH; [exact Hrest|]. rewrite <- Happ. exact Horder.
    + exact Hproto.
    + rewrite Happ, !map_app in Horder. simpl in Horder.
      exact (enumeration_order_prefix _ _ Horder).
Qed.

Lemma mapM_Forall2 {A B} (f : A -> result B) l l' :
  Forall2 (fun a b => f a = OK b) l l' -> mapM f l = OK l'.
Proof.
  induction 1 as [|a b l l' H _ IH]; simpl; [reflexivity|].
  rewrite H, IH. reflexivity.
Qed.

(* ===================================================================== *)
(** * The round trip *)

Arguments of_nat : simpl never.

Lemma bind_OK {A B} (a : A) (k : A -> result B) : bind (OK a) k = k a.
Proof. reflexivity. Qed.

Lemma num_eqb_same n : num_eqb (of_nat n) (of_nat n) = true.
Proof.
  unfold num_eqb. rewrite num_compare_of_nat, Nat.compare_refl. reflexivity.
Qed.

Lemma serialize_sequence itemType items :
  serializeValue (TList itemType items) =
  (t <- typeString itemType ;;
   data <- mapM serializeValue items ;;
   OK (JArr (JStr t :: JNum (of_nat (List.length items)) :: data)))
  /\ serializeValue (TSet itemType items)
     = serializeValue (TList itemType items).
Proof. split; reflexivity. Qed.

Lemma serialize_TMap keyType itemType items :
  serializeValue (TMap keyType itemType items) =
  (data2 <- foldM (fun data2 item =>
                     kv <- (k <- serializeValue (key item) ;;
                            x <- serializeValue (value item) ;;
                            p <- ToString k ;;
                            OK (p, x)) ;;
                     OK (obj_set (fst kv) (snd kv) data2))
                  items [] ;;
   kt <- typeString keyType ;;
   it <- typeString itemType ;;
   OK (JArr [JStr kt; JStr it; JNum (of_nat (List.length items));
             JObj data2])).
Proof.
  change (serializeValue (TMap keyType itemType items)) with
    (data2 <- foldM (fun data2 item =>
                       k <- serializeValue (key item) ;;
                       x <- serializeValue (value item) ;;
                       p <- ToString k ;;
                       OK (obj_set p x data2))
                    items [] ;;
     kt <- typeString keyType ;;
     it <- typeString itemType ;;
     OK (JArr [JStr kt; JStr it; JNum (of_nat (List.length items));
               JObj data2])).
  rewrite (foldM_ext_in _
             (fun data2 item =>
                kv <- (k <- serializeValue (key item) ;;
                       x <- serializeValue (value item) ;;
                       p <- ToString k ;;
                       OK (p, x)) ;;
                OK (obj_set (fst kv) (snd kv) data2))); [reflexivity|].
  intros data2 item _.
  destruct (serializeValue (key item)) as [k|e]; simpl; [|reflexivity].
  destruct (serializeValue (value item)) as [x|e]; simpl; [|reflexivity].
  destruct (ToString k); reflexivity.
Qed.

Lemma serialize_TStruct fields :
  serializeValue (TStruct fields) =
  (data <- foldM (fun data kf =>
                    kv <- (t <- typeString (fieldType (snd kf)) ;;
                           x <- serializeValue (field_value (snd kf)) ;;
                           OK (fst kf, JObj (obj_set t x []))) ;;
                    OK (obj_set (fst kv) (snd kv) data))
                 fields [] ;;
   OK (JObj data)).
Proof.
  change (serializeValue (TStruct fields)) with
    (data <- foldM (fun data kf =>
                      t <- typeString (fieldType (snd kf)) ;;
                      x <- serializeValue (field_value (snd kf)) ;;
                      OK (obj_set (fst kf) (JObj (obj_set t x [])) data))
                   fields [] ;;
     OK (JObj data)).
  rewrite (foldM_ext_in _
             (fun data kf =>
                kv <- (t <- typeString (fieldType (snd kf)) ;;
                       x <- serializeValue (field_value (snd kf)) ;;
                       OK (fst kf, JObj (obj_set t x []))) ;;
                OK (obj_set (fst kv) (snd kv) data))); [reflexivity|].
  intros data kf _.
  destruct (typeString (fieldType (snd kf))) as [t|e]; simpl; [|reflexivity].
  destruct (serializeValue (field_value (snd kf))); reflexivity.
Qed.

Lemma has_tag_valueType t v : has_tag t v = true -> valueType v = OK t.
Proof.
  unfold has_tag. destruct (valueType v) as [t'|e]; [|discriminate].
  intros H. apply TType_eqb_eq in H. congruence.
Qed.

Lemma key_name_Some k s :
  key_name k = Some s -> k = TBase STRING (Some (PStr s)) /\ s <> "__proto__".
Proof.
  destruct k as [|t [[b|n|s']|]| | | |]; try discriminate;
    destruct t; try discriminate. simpl.
  destruct (String.eqb s' "__proto__") eqn:E; [discriminate|].
  intros H. inversion H; subst. apply String.eqb_neq in E. auto.
Qed.

Lemma is_field_id_canonical id :
  is_field_id id = true ->
  NumberToString (parseInt id) = id /\ id <> "__proto__".
Proof.
  intros H. split.
  - unfold is_field_id in H. destruct (parseInt id); try discriminate H.
    apply andb_true_iff in H. destruct H as [_ H].
    apply String.eqb_eq in H. exact H.
  - intros ->. vm_compute in H. discriminate H.
Qed.

Lemma scalar_survives t p :
  wire_faithful (TBase t p) = true -> survives (TBase t p).
Proof.
  intros H. unfold survives. simpl in H.
  destruct p as [[b|n|s]|]; unfold payload_fits, is_scalar_tag in H;
    destruct t; try discriminate H; simpl in H.
  all: try (destruct (isNaN n) eqn:En; [discriminate H|]).
  all: try (eexists; split;
            [simpl; try rewrite En; reflexivity
            |intros t' Ht; inversion Ht; subst; clear Ht;
             rewrite deserializeValue_unfold; try reflexivity]).
  destruct b; reflexivity.
Qed.

Lemma items_survive itemType items :
  Forall (fun x => wire_faithful x = true -> survives x) items ->
  forallb (fun x => has_tag itemType x && wire_faithful x) items = true ->
  exists data,
    Forall2 (fun x j => serializeValue x = OK j) items data /\
    Forall2 (fun j x => deserializeValue itemType j = OK x) data items.
Proof.
  induction 1 as [|x items Hx _ IH]; simpl; intros H.
  - exists []. split; constructor.
  - apply andb_true_iff in H. destruct H as [H Hrest].
    apply andb_true_iff in H. destruct H as [Htag Hwf].
    destruct (IH Hrest) as [data [Hs Hd]].
    destruct (Hx Hwf) as [j [Hj Hback]].
    exists (j :: data). split; constructor; auto.
    apply Hback, has_tag_valueType, Htag.
Qed.

Lemma list_survives itemType items :
  Forall (fun x => wire_faithful x = true -> survives x) items ->
  wire_faithful (TList itemType items) = true ->
  survives (TList itemType items) /\ survives (TSet itemType items).
Proof.
  intros IH H. simpl in H. apply andb_true_iff in H. destruct H as [Ht H].
  destruct (typeString_inverse _ Ht) as [s [Hs [Hback _]]].
  destruct (items_survive _ _ IH H) as [data [Hser Hde]].
  apply mapM_Forall2 in Hser. apply mapM_Forall2 in Hde.
  assert (Hdecode :
    forall what make,
      deserialize_sequence deserializeValue what make
        (JArr (JStr s :: JNum (of_nat (List.length items)) :: data))
      = OK (make itemType items)).
  { intros what make. rewrite sequence_decoded, Hback. simpl.
    rewrite Hde. simpl. rewrite num_eqb_same. reflexivity. }
  split; eexists; (split;
    [ first [ rewrite (proj2 (serialize_sequence _ _)) | idtac ];
      rewrite (proj1 (serialize_sequence _ _)), Hs; simpl;
      rewrite Hser; reflexivity
    | intros t Hvt; inversion Hvt; subst; clear Hvt ]).
  - rewrite deserialize_LIST. apply Hdecode.
  - rewrite deserialize_SET. apply Hdecode.
Qed.

Lemma entries_survive keyType itemType (items : list TMapEntry) :
  Forall (fun e => (wire_faithful (key e) = true -> survives (key e)) /\
                   (wire_faithful (value e) = true -> survives (value e)))
         items ->
  forallb (fun e =>
             has_tag keyType (key e)
             && match key_name (key e) with Some _ => true | None => false end
             && has_tag itemType (value e)
             && wire_faithful (value e)) items = true ->
  exists out,
    map fst out = key_names items /\
    Forall2 (fun e kv =>
               (k <- serializeValue (key e) ;;
                x <- serializeValue (value e) ;;
                p <- ToString k ;;
                OK (p, x)) = OK kv /\ fst kv <> "__proto__") items out /\
    Forall2 (fun kx e =>
               (k <- deserializeValue keyType (JStr (fst kx)) ;;
                x <- deserializeValue itemType (snd kx) ;;
                OK (mkTMapEntry k x)) = OK e) out items.
Proof.
  induction 1 as [|e items [_ Hv] _ IH]; simpl; intros H.
  - exists []. repeat split; constructor.
  - apply andb_true_iff in H. destruct H as [H Hrest].
    apply andb_true_iff in H. destruct H as [H Hwf].
    apply andb_true_iff in H. destruct H as [H Htag].
    apply andb_true_iff in H. destruct H as [Hktag Hkey].
    destruct (IH Hrest) as [out [Hnames [Hser Hde]]].
    destruct (Hv Hwf) as [j [Hj Hback]].
    unfold key_names. simpl. fold (key_names items).
    destruct (key_name (key e)) as [s|] eqn:Ek; [|discriminate Hkey].
    destruct (key_name_Some _ _ Ek) as [Hk Hproto].
    assert (HkeyType : keyType = STRING).
    { apply has_tag_valueType in Hktag. rewrite Hk in Hktag.
      inversion Hktag. reflexivity. }
    subst keyType.
    exists ((s, j) :: out). repeat split.
    + simpl. rewrite Hnames. reflexivity.
    + constructor; [|exact Hser]. rewrite Hk, Hj. split; [reflexivity|].
      exact Hproto.
    + constructor; [|exact Hde]. simpl.
      rewrite (Hback _ (has_tag_valueType _ _ Htag)). simpl.
      destruct e as [k v]. simpl in Hk. rewrite Hk. reflexivity.
Qed.

Lemma map_survives keyType itemType items :
  Forall (fun e => (wire_faithful (key e) = true -> survives (key e)) /\
                   (wire_faithful (value e) = true -> survives (value e)))
         items ->
  wire_faithful (TMap keyType itemType items) = true ->
  survives (TMap keyType itemType items).
Proof.
  intros IH H. simpl in H.
  apply andb_true_iff in H. destruct H as [H Horder].
  apply andb_true_iff in H. destruct H as [H Hitems].
  apply andb_true_iff in H. destruct H as [Hkt Hit].
  destruct (typeString_inverse _ Hkt) as [ks [Hks [Hkback _]]].
  destruct (typeString_inverse _ Hit) as [s [Hs [Hback _]]].
  destruct (entries_survive _ _ _ IH Hitems) as [out [Hnames [Hser Hde]]].
  apply mapM_Forall2 in Hde.
  exists (JArr [JStr ks; JStr s; JNum (of_nat (List.length items));
                JObj out]).
  split.
  - rewrite serialize_TMap.
    rewrite (foldM_obj_set _ items out []); [|exact Hser|].
    + simpl. rewrite Hks, Hs. reflexivity.
    + simpl. rewrite Hnames. exact Horder.
  - intros t Ht. inversion Ht; subst; clear Ht.
    rewrite (deserialize_map_entries _ keyType) by exact Hkback.
    rewrite Hback, bind_OK, Hde, bind_OK, loose_neq_same. reflexivity.
Qed.

Lemma fields_survive (fields : list (string * TField)) :
  Forall (fun kf => wire_faithful (field_value (snd kf)) = true ->
                    survives (field_value (snd kf))) fields ->
  forallb (fun kf =>
             is_field_id (fst kf)
             && in_wire_table (fieldType (snd kf))
             && has_tag (fieldType (snd kf)) (field_value (snd kf))
             && wire_faithful (field_value (snd kf))) fields = true ->
  exists out,
    map fst out = map fst fields /\
    Forall2 (fun kf kv =>
               (t <- typeString (fieldType (snd kf)) ;;
                x <- serializeValue (field_value (snd kf)) ;;
                OK (fst kf, JObj (obj_set t x []))) = OK kv
               /\ fst kv <> "__proto__") fields out /\
    Forall2 (fun kv kf =>
               forall acc,
                 foldM (fun acc type_x =>
                          fieldType <- typeOfString (JStr (fst type_x)) ;;
                          x <- deserializeValue fieldType (snd type_x) ;;
                          OK (obj_set (NumberToString (parseInt (fst kv)))
                                (mkTField fieldType x) acc))
                       (for_in (snd kv)) acc
                 = OK (obj_set (fst kf) (snd kf) acc)) out fields.
Proof.
  induction 1 as [|kf fields Hv _ IH]; simpl; intros H.
  - exists []. repeat split; constructor.
  - apply andb_true_iff in H. destruct H as [H Hrest].
    apply andb_true_iff in H. destruct H as [H Hwf].
    apply andb_true_iff in H. destruct H as [H Htag].
    apply andb_true_iff in H. destruct H as [Hid Hft].
    destruct (IH Hrest) as [out [Hnames [Hser Hde]]].
    destruct (Hv Hwf) as [j [Hj Hback]].
    destruct (typeString_inverse _ Hft) as [s [Hs [Hsback Hset]]].
    destruct (is_field_id_canonical _ Hid) as [Hcanon Hproto].
    exists ((fst kf, JObj [(s, j)]) :: out). repeat split.
    + simpl. rewrite Hnames. reflexivity.
    + constructor; [|exact Hser]. rewrite Hs, Hj. simpl. rewrite Hset.
      split; [reflexivity|exact Hproto].
    + constructor; [|exact Hde]. intros acc. simpl. rewrite Hsback. simpl.
      rewrite (Hback _ (has_tag_valueType _ _ Htag)). simpl.
      rewrite Hcanon. destruct kf as [id [ft v]]. reflexivity.
Qed.

(** Reading the serialized fields back in order rebuilds the object. *)
Lemma fields_rebuilt (fields : list (string * TField)) :
  forall out pre,
    Forall2 (fun kv kf =>
               forall acc,
                 foldM (fun acc type_x =>
                          fieldType <- typeOfString (JStr (fst type_x)) ;;
                          x <- deserializeValue fieldType (snd type_x) ;;
                          OK (obj_set (NumberToString (parseInt (fst kv)))
                                (mkTField fieldType x) acc))
                       (for_in (snd kv)) acc
                 = OK (obj_set (fst kf) (snd kf) acc)) out fields ->
    Forall (fun kf => fst kf <> "__proto__") fields ->
    enumeration_order (map fst (pre ++ fields)) = true ->
    foldM (fun acc id_inner =>
             foldM (fun acc type_x =>
                      fieldType <- typeOfString (JStr (fst type_x)) ;;
                      x <- deserializeValue fieldType (snd type_x) ;;
                      OK (obj_set (NumberToString (parseInt (fst id_inner)))
                            (mkTField fieldType x) acc))
                   (for_in (snd id_inner)) acc)
          out pre
    = OK (pre ++ fields)%list.
Proof.
  induction fields as [|kf fields IH]; intros out pre Hall Hproto Horder;
    inversion Hall as [|kv kf' out' fields' Hstep Hrest]; subst; simpl.
  - rewrite app_nil_r. reflexivity.
  - rewrite Hstep. simpl.
    assert (Happ : (pre ++ kf :: fields = (pre ++ [kf]) ++ fields)%list)
      by (rewrite <- app_assoc; reflexivity).
    inversion Hproto as [|? ? Hkf Hproto']; subst.
    rewrite obj_set_appends.
    + rewrite <- surjective_pairing, Happ.
      apply IH; [exact Hrest|exact Hproto'|].
      rewrite <- Happ. exact Horder.
    + exact Hkf.
    + rewrite Happ, !map_app in Horder. simpl in Horder.
      exact (enumeration_order_prefix _ _ Horder).
Qed.

Lemma struct_survives (fields : list (string * TField)) :
  Forall (fun kf => wire_faithful (field_value (snd kf)) = true ->
                    survives (field_value (snd kf))) fields ->
  wire_faithful (TStruct fields) = true ->
  survives (TStruct fields).
Proof.
  intros IH H. simpl in H. apply andb_true_iff in H.
  destruct H as [Hfields Horder].
  destruct (fields_survive _ IH Hfields) as [out [Hnames [Hser Hde]]].
  assert (Hproto : Forall (fun kf => fst kf <> "__proto__") fields).
  { apply Forall_forall. intros kf Hin.
    rewrite forallb_forall in Hfields. specialize (Hfields kf Hin).
    repeat (apply andb_true_iff in Hfields; destruct Hfields as [Hfields _]).
    exact (proj2 (is_field_id_canonical _ Hfields)). }
  exists (JObj out). split.
  - rewrite serialize_TStruct.
    rewrite (foldM_obj_set _ fields out []); [reflexivity|exact Hser|].
    simpl. rewrite Hnames. exact Horder.
  - intros t Ht. inversion Ht; subst; clear Ht.
    rewrite deserializeValue_unfold. unfold deserializeValue_body.
    change (negb (truthy (JObj out))) with false. cbv iota.
    change (for_in (JObj out)) with out.
    pose proof (fields_rebuilt fields out [] Hde Hproto Horder) as E.
    unfold TField in E. rewrite E. reflexivity.
Qed.

Lemma wire_faithful_survives v : wire_faithful v = true -> survives v.
Proof.
  induction v as [|t p|itemType items IH|keyType itemType items IH
                  |itemType items IH|fields IH] using TValue_ind.
  - discriminate.
  - apply scalar_survives.
  - intros H. exact (proj1 (list_survives _ _ IH H)).
  - apply map_survives. exact IH.
  - intros H. exact (proj2 (list_survives _ _ IH H)).
  - apply struct_survives. exact IH.
Qed.

(** A map keyed by 32-bit integers, and a map whose string keys are not in
    enumeration order, do not come back: the first is refused on the way
    in, the second comes back in another order. *)
Lemma round_trip_loses_maps :
  round_trip
    (TMap I32 STRING
       [mkTMapEntry (TBase I32 (Some (PNum (Fin 1 0))))
                    (TBase STRING (Some (PStr "one")))])
  = Throw (TProtocolException INVALID_DATA "number expected: ")
  /\ round_trip
       (TMap I32 STRING
          [mkTMapEntry (TBase I32 (Some (PNum (Fin 1 0))))
                       (TBase STRING (Some (PStr "one")))])
     <> OK (TMap I32 STRING
              [mkTMapEntry (TBase I32 (Some (PNum (Fin 1 0))))
                           (TBase STRING (Some (PStr "one")))])
  /\ serializeValue
       (TMap I32 STRING
          [mkTMapEntry (TBase I32 (Some (PNum (Fin 1 0))))
                       (TBase STRING (Some (PStr "one")))])
     = OK (JArr [JStr "i32"; JStr "str"; JNum (Fin 1 0);
                 JObj [("1", JStr "one")]])
  /\ round_trip
       (TMap STRING I32
          [mkTMapEntry (TBase STRING (Some (PStr "b")))
                       (TBase I32 (Some (PNum (Fin 1 0))));
           mkTMapEntry (TBase STRING (Some (PStr "1")))
                       (TBase I32 (Some (PNum (Fin 2 0))))])
     = OK (TMap STRING I32
             [mkTMapEntry (TBase STRING (Some (PStr "1")))
                          (TBase I32 (Some (PNum (Fin 2 0))));
              mkTMapEntry (TBase STRING (Some (PStr "b")))
                          (TBase I32 (Some (PNum (Fin 1 0))))])
  /\ round_trip
       (TMap STRING I32
          [mkTMapEntry (TBase STRING (Some (PStr "b")))
                       (TBase I32 (Some (PNum (Fin 1 0))));
           mkTMapEntry (TBase STRING (Some (PStr "1")))
                       (TBase I32 (Some (PNum (Fin 2 0))))])
     <> OK (TMap STRING I32
              [mkTMapEntry (TBase STRING (Some (PStr "b")))
                           (TBase I32 (Some (PNum (Fin 1 0))));
               mkTMapEntry (TBase STRING (Some (PStr "1")))
                           (TBase I32 (Some (PNum (Fin 2 0))))]).
Proof.
  repeat split; try run; intros H; vm_compute in H; discriminate H.
Qed.

(** Each condition of [wire_faithful] is there for a tree that does not
    come back: an item that is not of the declared tag, a payload of
    another kind, a tag without wire string, a null reference, an absent
    key, a repeated key, the key [__proto__], a field id that is not in
    canonical form. *)
Lemma round_trip_limits :
  round_trip (TList BOOL [TBase I32 (Some (PNum (Fin 5 0)))])
  = OK (TList BOOL [TBase BOOL (Some (PBool true))])
  /\ invalid_data (round_trip (TBase I32 (Some (PStr "x"))))
  /\ invalid_data
       (round_trip (TList UTF8 [TBase UTF8 (Some (PStr "x"))]))
  /\ round_trip (TList I32 [TNullRef]) = OK (TList I32 [TBase I32 None])
  /\ round_trip
       (TMap STRING I32
          [mkTMapEntry (TBase STRING None)
                       (TBase I32 (Some (PNum (Fin 1 0))))])
     = OK (TMap STRING I32
             [mkTMapEntry (TBase STRING (Some (PStr "null")))
                          (TBase I32 (Some (PNum (Fin 1 0))))])
  /\ invalid_data
       (round_trip
          (TMap STRING I32
             [mkTMapEntry (TBase STRING (Some (PStr "a")))
                          (TBase I32 (Some (PNum (Fin 1 0))));
              mkTMapEntry (TBase STRING (Some (PStr "a")))
                          (TBase I32 (Some (PNum (Fin 2 0))))]))
  /\ invalid_data
       (round_trip
          (TMap STRING I32
             [mkTMapEntry (TBase STRING (Some (PStr "__proto__")))
                          (TBase I32 (Some (PNum (Fin 1 0))))]))
  /\ round_trip
       (TStruct [("01", mkTField I32 (TBase I32 (Some (PNum (Fin 7 0)))))])
     = OK (TStruct
             [("1", mkTField I32 (TBase I32 (Some (PNum (Fin 7 0)))))]).
Proof. repeat split; try run; raises. Qed.

(** C1, as the code has it.  For every tagged-value tree in which scalars
    hold a payload of their tag's kind (no NaN) or none, every declared
    item, key, value and field tag is one of the eleven wire tags and is
    the tag of the value it declares, the keys of every map are present
    STRING scalars, distinct, other than [__proto__] and in property
    enumeration order, and every struct is keyed by field ids in
    enumeration order: deserializing the result of serializing the tree,
    with the tree's own tag as expected tag, yields the tree. *)
Theorem round_trip_wire_faithful v :
  wire_faithful v = true -> round_trip v = OK v.
Proof.
  intros H. destruct (wire_faithful_survives v H) as [data [Hs Hd]].
  unfold round_trip.
  destruct (valueType v) as [t|e] eqn:Et.
  - simpl. rewrite Hs. simpl. apply Hd. reflexivity.
  - destruct v; try discriminate Et. discriminate H.
Qed.

Lemma round_trip_wire_faithful_witness :
  wire_faithful
    (TStruct
       [("1", mkTField I32 (TBase I32 (Some (PNum (Fin 7 0)))));
        ("2", mkTField LIST
                (TList STRING [TBase STRING (Some (PStr "x"));
                               TBase STRING None]));
        ("3", mkTField MAP
                (TMap STRING BOOL
                   [mkTMapEntry (TBase STRING (Some (PStr "a")))
                                (TBase BOOL (Some (PBool false)))]));
        ("4", mkTField MAP (TMap I32 STRING []))])
  = true /\
  round_trip
    (TStruct
       [("1", mkTField I32 (TBase I32 (Some (PNum (Fin 7 0)))));
        ("2", mkTField LIST
                (TList STRING [TBase STRING (Some (PStr "x"));
                               TBase STRING None]));
        ("3", mkTField MAP
                (TMap STRING BOOL
                   [mkTMapEntry (TBase STRING (Some (PStr "a")))
                                (TBase BOOL (Some (PBool false)))]));
        ("4", mkTField MAP (TMap I32 STRING []))])
  = OK
      (TStruct
         [("1", mkTField I32 (TBase I32 (Some (PNum (Fin 7 0)))));
          ("2", mkTField LIST
                  (TList STRING [TBase STRING (Some (PStr "x"));
                                 TBase STRING None]));
          ("3", mkTField MAP
                  (TMap STRING BOOL
                     [mkTMapEntry (TBase STRING (Some (PStr "a")))
                                  (TBase BOOL (Some (PBool false)))]));
          ("4", mkTField MAP (TMap I32 STRING []))]).
Proof.
  split; [vm_compute; reflexivity|].
  apply (round_trip_wire_faithful
           (TStruct
              [("1", mkTField I32 (TBase I32 (Some (PNum (Fin 7 0)))));
               ("2", mkTField LIST
                       (TList STRING [TBase STRING (Some (PStr "x"));
                                      TBase STRING None]));
               ("3", mkTField MAP
                       (TMap STRING BOOL
                          [mkTMapEntry (TBase STRING (Some (PStr "a")))
                                       (TBase BOOL (Some (PBool false)))]));
               ("4", mkTField MAP (TMap I32 STRING []))])).
  vm_compute. reflexivity.
Defined.

(* ===================================================================== *)
(** * What a decoded value looks like *)

Lemma bind_inv {A B} (c : result A) (k : A -> result B) b :
  bind c k = OK b -> exists a, c = OK a /\ k a = OK b.
Proof. destruct c as [a|e]; simpl; intros H; [eauto|discriminate H]. Qed.

Lemma mapM_inv {A B} (f : A -> result B) l :
  forall l', mapM f l = OK l' -> Forall2 (fun a b => f a = OK b) l l'.
Proof.
  induction l as [|x l IH]; simpl; intros l' H.
  - inversion H. constructor.
  - apply bind_inv in H. destruct H as [y [Hy H]].
    apply bind_inv in H. destruct H as [ys [Hys H]].
    inversion H; subst. constructor; auto.
Qed.

Lemma foldM_invariant {A S} (P : S -> Prop) (f : S -> A -> result S) l :
  (forall s a s', In a l -> P s -> f s a = OK s' -> P s') ->
  forall s s', P s -> foldM f l s = OK s' -> P s'.
Proof.
  induction l as [|x l IH]; simpl; intros Hstep s s' Hs H.
  - inversion H; subst. exact Hs.
  - apply bind_inv in H. destruct H as [s1 [H1 H]].
    apply (IH (fun s0 a s0' Ha => Hstep s0 a s0' (or_intror Ha)) s1 s');
      [|exact H].
    exact (Hstep s x s1 (or_introl eq_refl) Hs H1).
Qed.

(** An assignment keeps what holds of every value of the object. *)
Lemma obj_set_Forall {V} (P : V -> Prop) k v (o : list (string * V)) :
  P v -> Forall (fun kv => P (snd kv)) o ->
  Forall (fun kv => P (snd kv)) (obj_set k v o).
Proof.
  intros Hv Ho. unfold obj_set.
  destruct (String.eqb k "__proto__"); [exact Ho|].
  destruct (has_own k o).
  - induction Ho as [|[k0 v0] o Hk0 Ho IH]; simpl; [constructor|].
    destruct (String.eqb k0 k); constructor; simpl; auto.
  - destruct (array_index k) as [n|].
    + induction Ho as [|[k0 v0] o Hk0 Ho IH]; simpl.
      * constructor; [exact Hv|constructor].
      * destruct (array_index k0) as [n0|].
        -- destruct (n0 <? n); constructor; simpl; auto.
        -- constructor; [exact Hv|]. constructor; auto.
    + apply Forall_app. split; [exact Ho|].
      constructor; [exact Hv|constructor].
Qed.

Lemma has_tag_make_list itemType items :
  has_tag LIST (TList itemType items) = true
  /\ has_tag SET (TSet itemType items) = true.
Proof. split; reflexivity. Qed.

Section decoded.
Variable self : TType -> JSValue -> result TValue.
Hypothesis self_tagged :
  forall t v x, self t v = OK x -> has_tag t x = true /\ well_tagged x = true.

Lemma items_tagged itemType data items :
  mapM (self itemType) data = OK items ->
  forallb (fun x => has_tag itemType x && well_tagged x) items = true.
Proof.
  intros H. apply mapM_inv in H.
  induction H as [|j x data items Hx _ IH]; simpl; [reflexivity|].
  destruct (self_tagged _ _ _ Hx) as [-> ->]. exact IH.
Qed.

Lemma sequence_tagged what make tag v x :
  (forall itemType items,
      has_tag tag (make itemType items) = true /\
      well_tagged (make itemType items)
      = in_wire_table itemType
        && forallb (fun x => has_tag itemType x && well_tagged x) items) ->
  deserialize_sequence self what make v = OK x ->
  has_tag tag x = true /\ well_tagged x = true.
Proof.
  intros Hmake H. unfold deserialize_sequence in H.
  apply bind_inv in H. destruct H as [[|] [_ H]]; [discriminate H|].
  destruct v as [| | | |s|list|props]; try discriminate H.
  destruct (shift list) as [t l1]. apply bind_inv in H.
  destruct H as [itemType [Ht H]].
  destruct (shift l1) as [size data]. apply bind_inv in H.
  destruct H as [items [Hitems H]]. apply bind_inv in H.
  destruct H as [[|] [_ H]]; [discriminate H|]. inversion H; subst.
  destruct (Hmake itemType items) as [Htag Hwell]. split; [exact Htag|].
  rewrite Hwell, (typeOfString_wire_only _ _ Ht), (items_tagged _ _ _ Hitems).
  reflexivity.
Qed.

Lemma body_tagged t v x :
  deserializeValue_body self t v = OK x ->
  has_tag t x = true /\ well_tagged x = true.
Proof.
  intros H. destruct t; unfold deserializeValue_body in H.
  1,2: apply bind_inv in H; destruct H as [_ [_ H]]; discriminate H.
  all: try (destruct (isNull v); [inversion H; split; reflexivity|]).
  - (* BOOL *) inversion H. split; reflexivity.
  - (* I08 *) destruct v; inversion H. split; reflexivity.
  - (* DOUBLE *) destruct v; inversion H. split; reflexivity.
  - (* I16 *) destruct v; inversion H. split; reflexivity.
  - (* I32 *) destruct v; inversion H. split; reflexivity.
  - (* I64 *) destruct v; inversion H. split; reflexivity.
  - (* STRING *) destruct v; inversion H. split; reflexivity.
  - (* STRUCT *)
    destruct (negb (truthy v)); [discriminate H|].
    apply bind_inv in H. destruct H as [fields [Hfields H]].
    inversion H; subst. split; [reflexivity|]. simpl.
    apply forallb_forall. intros kf Hkf.
    revert kf Hkf. apply Forall_forall.
    pose (P := fun f : TField =>
                 in_wire_table (fieldType f)
                 && has_tag (fieldType f) (field_value f)
                 && well_tagged (field_value f) = true).
    change (Forall (fun kf => P (snd kf)) fields).
    revert Hfields.
    apply (foldM_invariant (fun fs => Forall (fun kf => P (snd kf)) fs));
      [|constructor].
    intros fs [id inner] fs' _ Hfs. simpl.
    apply (foldM_invariant (fun fs => Forall (fun kf => P (snd kf)) fs));
      [|exact Hfs].
    intros fs1 [type j] fs1' _ Hfs1 Hstep. simpl in Hstep.
    apply bind_inv in Hstep. destruct Hstep as [ft [Hft Hstep]].
    apply bind_inv in Hstep. destruct Hstep as [y [Hy Hstep]].
    inversion Hstep; subst. apply obj_set_Forall; [|exact Hfs1].
    unfold P. simpl. destruct (self_tagged _ _ _ Hy) as [-> ->].
    rewrite (typeOfString_wire_only _ _ Hft). reflexivity.
  - (* MAP *)
    apply bind_inv in H. destruct H as [[|] [_ H]]; [discriminate H|].
    destruct v as [| | | |s|map|props]; try discriminate H.
    destruct (shift map) as [kt l1]. apply bind_inv in H.
    destruct H as [keyType [Hkt H]].
    destruct (shift l1) as [it l2]. apply bind_inv in H.
    destruct H as [itemType [Hit H]].
    destruct (shift l2) as [size l3]. destruct (shift l3) as [data l4].
    apply bind_inv in H. destruct H as [items [Hitems H]].
    apply bind_inv in H. destruct H as [[|] [_ H]]; [discriminate H|].
    inversion H; subst. clear H. split; [reflexivity|]. simpl.
    rewrite (typeOfString_wire_only _ _ Hkt), (typeOfString_wire_only _ _ Hit).
    simpl. apply mapM_inv in Hitems.
    induction Hitems as [|kx e l items He _ IH]; simpl; [reflexivity|].
    apply bind_inv in He. destruct He as [k [Hk He]].
    apply bind_inv in He. destruct He as [y [Hy He]].
    inversion He; subst. simpl.
    destruct (self_tagged _ _ _ Hk) as [-> ->].
    destruct (self_tagged _ _ _ Hy) as [-> ->]. exact IH.
  - (* SET *)
    apply (sequence_tagged "set" TSet SET v x); [|exact H].
    intros itemType items. split; reflexivity.
  - (* LIST *)
    apply (sequence_tagged "list" TList LIST v x); [|exact H].
    intros itemType items. split; reflexivity.
  - (* UTF8 *) destruct v; inversion H. split; reflexivity.
  - (* UTF16 *) destruct v; inversion H. split; reflexivity.
Qed.
End decoded.

Lemma deserializeValue_upto_tagged levels :
  forall t v x,
    deserializeValue_upto levels t v = OK x ->
    has_tag t x = true /\ well_tagged x = true.
Proof.
  induction levels as [|n IH]; intros t v x H; [discriminate H|].
  exact (body_tagged _ IH t v x H).
Qed.

Lemma deserializeValue_tagged t v x :
  deserializeValue t v = OK x ->
  has_tag t x = true /\ well_tagged x = true.
Proof. apply deserializeValue_upto_tagged. Qed.

Lemma has_tag_STRUCT x :
  has_tag STRUCT x = true -> well_tagged x = true ->
  exists fields, x = TStruct fields.
Proof.
  destruct x as [|t p| | | |fields]; try discriminate.
  - unfold has_tag. simpl. intros Ht. apply TType_eqb_eq in Ht. subst t.
    destruct p as [[b|n|s]|]; simpl; discriminate.
  - eauto.
Qed.

Lemma get_own_In {V} k (o : list (string * V)) v :
  get_own k o = Some v -> exists k', In (k', v) o.
Proof.
  induction o as [|[k0 v0] o IH]; simpl; [discriminate|].
  destruct (String.eqb k0 k).
  - intros H. inversion H; subst. eauto.
  - intros H. destruct (IH H) as [k' Hk']. eauto.
Qed.

Lemma getField_tagged (fields : list (string * TField)) id t f :
  well_tagged (TStruct fields) = true ->
  getField fields id t = Some f ->
  valueType (field_value f) = OK t /\ well_tagged (field_value f) = true.
Proof.
  intros Hw. unfold getField.
  destruct (get_own (NumberToString id) fields) as [f0|] eqn:E;
    [|discriminate].
  destruct (TType_eqb (fieldType f0) t) eqn:Et; [|discriminate].
  intros H. inversion H; subst. apply TType_eqb_eq in Et. subst t.
  destruct (get_own_In _ _ _ E) as [k Hk].
  simpl in Hw. rewrite forallb_forall in Hw. specialize (Hw _ Hk).
  simpl in Hw. apply andb_true_iff in Hw. destruct Hw as [Hw Hwell].
  apply andb_true_iff in Hw. destruct Hw as [_ Htag].
  split; [exact (has_tag_valueType _ _ Htag)|exact Hwell].
Qed.

(** The decoder gives a value of the tag it was asked for, and a tree
    whose declared tags are wire tags that its contents carry: an item of a
    decoded list has the list's item tag, a key and a value of a decoded
    map have its key and value tags, a decoded field holds a value of its
    field type, and a decoded scalar a payload of its kind or none. *)
Theorem decoded_value_is_well_tagged t v x :
  deserializeValue t v = OK x ->
  valueType x = OK t /\ well_tagged x = true.
Proof.
  intros H. destruct (deserializeValue_tagged _ _ _ H) as [Ht Hw].
  split; [exact (has_tag_valueType _ _ Ht)|exact Hw].
Qed.

Lemma decoded_value_is_well_tagged_witness :
  deserializeValue LIST (JArr [JStr "i32"; JStr "2"; JNum (Fin 7 0); JNull])
  = OK (TList I32 [TBase I32 (Some (PNum (Fin 7 0))); TBase I32 None])
  /\ valueType (TList I32 [TBase I32 (Some (PNum (Fin 7 0))); TBase I32 None])
     = OK LIST
  /\ well_tagged
       (TList I32 [TBase I32 (Some (PNum (Fin 7 0))); TBase I32 None])
     = true.
Proof.
  split; [vm_compute; reflexivity|].
  apply (decoded_value_is_well_tagged LIST
           (JArr [JStr "i32"; JStr "2"; JNum (Fin 7 0); JNull])).
  vm_compute. reflexivity.
Defined.

(** What [readStruct] and [readMessage] return holds a struct: the result
    of [readStruct] and the payload of the message are [TStruct] objects,
    never a scalar or another container. *)
Theorem read_returns_struct data :
  (forall x, readStruct data = OK x -> exists fields, x = TStruct fields) /\
  (forall m, readMessage data = OK m ->
             exists fields, message_value m = TStruct fields).
Proof.
  split.
  - intros x H. unfold readStruct in H.
    destruct (negb (truthy data)); [discriminate H|].
    destruct (deserializeValue_tagged _ _ _ H) as [Ht Hw].
    exact (has_tag_STRUCT _ Ht Hw).
  - intros m H. unfold readMessage in H.
    apply bind_inv in H. destruct H as [[|] [_ H]]; [discriminate H|].
    apply bind_inv in H. destruct H as [[|] [_ H]]; [discriminate H|].
    apply bind_inv in H. destruct H as [payload [Hp H]].
    inversion H; subst. simpl.
    destruct (deserializeValue_tagged _ _ _ Hp) as [Ht Hw].
    exact (has_tag_STRUCT _ Ht Hw).
Qed.

(** On a struct that [readStruct] returned, [getField(id, type)] gives
    only fields whose value has tag [type]: the getter that belongs to the
    value succeeds, and a payload that is present is of the kind of
    [type]. *)
Theorem decoded_field_has_expected_tag data fields id t f :
  readStruct data = OK (TStruct fields) ->
  getField fields id t = Some f ->
  valueType (field_value f) = OK t
  /\ (exists a, access a (field_value f) = OK (held_data (field_value f)))
  /\ (forall t' p, field_value f = TBase t' (Some p) ->
                   payload_kind_fits t p = true).
Proof.
  intros Hread Hget. unfold readStruct in Hread.
  destruct (negb (truthy data)); [discriminate Hread|].
  destruct (deserializeValue_tagged _ _ _ Hread) as [_ Hw].
  destruct (getField_tagged _ _ _ _ Hw Hget) as [Ht Hwell].
  split; [exact Ht|]. split.
  - destruct (own_accessor (field_value f)) as [a [Ha _]]; [|eauto].
    destruct (field_value f) as [|t0 [p|]| | | |]; simpl in *;
      try discriminate Hwell; auto.
    + left. unfold payload_kind_fits in Hwell. unfold is_scalar_tag.
      destruct (scalar_kind_of t0); [reflexivity|discriminate Hwell].
  - intros t' p E. rewrite E in Ht, Hwell. simpl in Ht, Hwell.
    inversion Ht; subst. exact Hwell.
Qed.

Lemma decoded_field_has_expected_tag_witness :
  readStruct (JObj [("1", JObj [("i32", JNum (Fin 7 0))])])
  = OK (TStruct [("1", mkTField I32 (TBase I32 (Some (PNum (Fin 7 0)))))])
  /\ getField [("1", mkTField I32 (TBase I32 (Some (PNum (Fin 7 0)))))]
       (Fin 1 0) I32
     = Some (mkTField I32 (TBase I32 (Some (PNum (Fin 7 0)))))
  /\ valueType (TBase I32 (Some (PNum (Fin 7 0)))) = OK I32.
Proof.
  split; [vm_compute; reflexivity|]. split; [vm_compute; reflexivity|].
  apply (decoded_field_has_expected_tag
           (JObj [("1", JObj [("i32", JNum (Fin 7 0))])])
           [("1", mkTField I32 (TBase I32 (Some (PNum (Fin 7 0)))))]
           (Fin 1 0) I32
           (mkTField I32 (TBase I32 (Some (PNum (Fin 7 0)))))).
  - vm_compute. reflexivity.
  - vm_compute. reflexivity.
Defined.

(* ===================================================================== *)
(** * Reading what holds no property *)

(** [readStruct] refuses a falsy input ([null], [false], 0, the empty
    string) with INVALID_DATA "illegal data format"; a truthy number or
    [true] has no property to enumerate and is read as the empty struct,
    like the empty object. *)
Theorem readStruct_without_properties :
  (forall v, truthy v = false ->
             readStruct v
             = Throw (TProtocolException INVALID_DATA "illegal data format"))
  /\ (forall n, truthy (JNum n) = true ->
                readStruct (JNum n) = OK (TStruct []))
  /\ readStruct (JBool true) = OK (TStruct [])
  /\ readStruct (JObj []) = OK (TStruct []).
Proof.
  repeat split; try reflexivity.
  - intros v H. unfold readStruct. rewrite H. reflexivity.
  - intros n H. unfold readStruct. rewrite deserializeValue_unfold.
    unfold deserializeValue_body. rewrite H. reflexivity.
Qed.

(* ===================================================================== *)
(** * Absent input *)

(** For an absent input ([null] or [undefined]) the decoder gives the
    unset scalar of the expected tag when the tag is a scalar tag, and
    raises INVALID_DATA for every other tag: a list, set, map or struct
    cannot be absent. *)
Theorem deserialize_absent_input t v :
  isNull v = true ->
  if is_scalar_tag t then deserializeValue t v = OK (TBase t None)
  else invalid_data (deserializeValue t v).
Proof.
  intros Hv. destruct (is_scalar_tag t) eqn:Et.
  - apply deserialize_absent; assumption.
  - unfold invalid_data. rewrite deserializeValue_unfold.
    destruct v; try discriminate Hv;
      destruct t; try discriminate Et; eexists; reflexivity.
Qed.

Lemma deserialize_absent_input_witness :
  isNull JNull = true /\ invalid_data (deserializeValue STRUCT JNull).
Proof.
  split; [reflexivity|].
  exact (deserialize_absent_input STRUCT JNull eq_refl).
Defined.

(* ===================================================================== *)
(** * The shape of decoded containers *)

Lemma sequence_of_array what make items x :
  deserialize_sequence deserializeValue what make (JArr items) = OK x ->
  exists t size data itemType xs,
    items = t :: size :: data
    /\ typeOfString t = OK itemType
    /\ mapM (deserializeValue itemType) data = OK xs
    /\ x = make itemType xs
    /\ List.length xs = List.length data
    /\ loose_neq size (of_nat (List.length data)) = OK false.
Proof.
  intros H. destruct items as [|t [|size data]].
  - rewrite sequence_short in H by (simpl; lia). discriminate H.
  - rewrite sequence_short in H by (simpl; lia). discriminate H.
  - rewrite sequence_decoded in H. apply bind_inv in H.
    destruct H as [itemType [Ht H]]. apply bind_inv in H.
    destruct H as [xs [Hxs H]]. apply bind_inv in H.
    destruct H as [[|] [Hsize H]]; [discriminate H|]. inversion H; subst.
    pose proof (mapM_length _ _ _ Hxs) as Hlen.
    exists t, size, data, itemType, xs. rewrite <- Hlen. auto 10.
Qed.

(** A list or set decoded from an array holds one item for each element
    after the tag and the count, in order, each decoded under the item
    tag that the first element names; the count, the second element, is
    loosely equal to their number.  No element is dropped or added. *)
Theorem decoded_sequence_shape items x :
  deserializeValue LIST (JArr items) = OK x
  \/ deserializeValue SET (JArr items) = OK x ->
  exists t size data itemType xs,
    items = t :: size :: data
    /\ typeOfString t = OK itemType
    /\ Forall2 (fun j y => deserializeValue itemType j = OK y) data xs
    /\ (x = TList itemType xs \/ x = TSet itemType xs)
    /\ loose_neq size (of_nat (List.length data)) = OK false.
Proof.
  intros [H|H]; [rewrite deserialize_LIST in H|rewrite deserialize_SET in H];
    destruct (sequence_of_array _ _ _ _ H)
      as [t [size [data [itemType [xs [E [Ht [Hxs [Hx [_ Hsize]]]]]]]]]];
    exists t, size, data, itemType, xs; apply mapM_inv in Hxs; auto 10.
Qed.

Lemma decoded_sequence_shape_witness :
  exists t size data itemType xs,
    [JStr "str"; JNum (Fin 1 0); JStr "a"] = t :: size :: data
    /\ typeOfString t = OK itemType
    /\ Forall2 (fun j y => deserializeValue itemType j = OK y) data xs
    /\ (TSet STRING [TBase STRING (Some (PStr "a"))] = TList itemType xs
        \/ TSet STRING [TBase STRING (Some (PStr "a"))] = TSet itemType xs)
    /\ loose_neq size (of_nat (List.length data)) = OK false.
Proof.
  apply (decoded_sequence_shape [JStr "str"; JNum (Fin 1 0); JStr "a"]
           (TSet STRING [TBase STRING (Some (PStr "a"))])).
  right. vm_compute. reflexivity.
Defined.

(** A map is decoded only from an array of exactly four elements: key
    tag, value tag, count, entries.  The decoded map has one entry for
    each property the entries value enumerates, in enumeration order, and
    the count is loosely equal to their number. *)
Theorem decoded_map_shape items x :
  deserializeValue MAP (JArr items) = OK x ->
  exists kt it size data keyType itemType entries,
    items = [kt; it; size; data]
    /\ typeOfString kt = OK keyType
    /\ typeOfString it = OK itemType
    /\ x = TMap keyType itemType entries
    /\ Forall2 (fun kx e =>
                  deserializeValue keyType (JStr (fst kx)) = OK (key e)
                  /\ deserializeValue itemType (snd kx) = OK (value e))
               (for_in data) entries
    /\ loose_neq size (of_nat (List.length (for_in data))) = OK false.
Proof.
  intros H. rewrite deserializeValue_unfold in H.
  unfold deserializeValue_body in H.
  change (length_of (JArr items)) with (JNum (of_nat (List.length items)))
    in H.
  change (Fin 4 0) with (of_nat 4) in H.
  change (truthy (JArr items)) with true in H. cbv iota in H.
  rewrite loose_neq_length in H. rewrite bind_OK in H.
  destruct (Nat.eqb_spec (List.length items) 4) as [Hlen|Hlen];
    [|discriminate H].
  destruct items as [|kt [|it [|size [|data [|extra items]]]]];
    try discriminate Hlen.
  simpl in H. apply bind_inv in H. destruct H as [keyType [Hkt H]].
  apply bind_inv in H. destruct H as [itemType [Hit H]].
  apply bind_inv in H. destruct H as [entries [Hentries H]].
  apply bind_inv in H. destruct H as [[|] [Hsize H]]; [discriminate H|].
  inversion H; subst.
  pose proof (mapM_length _ _ _ Hentries) as Hn. rewrite Hn in Hsize.
  exists kt, it, size, data, keyType, itemType, entries.
  repeat split; try assumption.
  apply mapM_inv in Hentries. revert Hentries. apply Forall2_impl.
  intros kx e He. apply bind_inv in He. destruct He as [k [Hk He]].
  apply bind_inv in He. destruct He as [y [Hy He]].
  inversion He; subst. auto.
Qed.

Lemma decoded_map_shape_witness :
  exists kt it size data keyType itemType entries,
    [JStr "str"; JStr "i32"; JNum (Fin 1 0); JObj [("a", JNum (Fin 1 0))]]
    = [kt; it; size; data]
    /\ typeOfString kt = OK keyType
    /\ typeOfString it = OK itemType
    /\ TMap STRING I32
         [mkTMapEntry (TBase STRING (Some (PStr "a")))
                      (TBase I32 (Some (PNum (Fin 1 0))))]
       = TMap keyType itemType entries
    /\ Forall2 (fun kx e =>
                  deserializeValue keyType (JStr (fst kx)) = OK (key e)
                  /\ deserializeValue itemType (snd kx) = OK (value e))
               (for_in data) entries
    /\ loose_neq size (of_nat (List.length (for_in data))) = OK false.
Proof.
  apply (decoded_map_shape
           [JStr "str"; JStr "i32"; JNum (Fin 1 0);
            JObj [("a", JNum (Fin 1 0))]]
           (TMap STRING I32
              [mkTMapEntry (TBase STRING (Some (PStr "a")))
                           (TBase I32 (Some (PNum (Fin 1 0))))])).
  vm_compute. reflexivity.
Defined.

(* ===================================================================== *)
(** * The wire-tag table, read the other way *)

(** [typeOfString] accepts the eleven wire strings and nothing else: when
    it returns a tag, its argument is a string and is the string
    [typeString] gives for that tag.  With C5 the two tables are inverse
    to each other. *)
Theorem typeString_typeOfString x t :
  typeOfString x = OK t -> exists s, x = JStr s /\ typeString t = OK s.
Proof.
  unfold typeOfString, throw. destruct x as [| | | |s| |];
    try (intros H; exfalso; exact (bind_throw_not_OK _ _ _ H)).
  repeat match goal with
         | |- (if String.eqb ?a ?b then _ else _) = _ -> _ =>
             destruct (String.eqb_spec a b)
         end; intros H;
    try (exfalso; exact (bind_throw_not_OK _ _ _ H));
    inversion H; subst; eexists; split; reflexivity.
Qed.

Lemma typeString_typeOfString_witness :
  typeOfString (JStr "rec") = OK STRUCT /\
  exists s, JStr "rec" = JStr s /\ typeString STRUCT = OK s.
Proof.
  split; [reflexivity|].
  exact (typeString_typeOfString (JStr "rec") STRUCT eq_refl).
Defined.

(* ===================================================================== *)
(** * What the serializer emits *)

Lemma mapM_Forall_out {A B} (f : A -> result B) (Q : A -> Prop)
  (P : B -> Prop) l l' :
  Forall Q l -> (forall a b, Q a -> f a = OK b -> P b) ->
  mapM f l = OK l' -> Forall P l'.
Proof.
  intros HQ Hstep H. apply mapM_inv in H. revert HQ.
  induction H as [|a b l l' Hab _ IH]; intros HQ; constructor;
    inversion HQ; subst; eauto.
Qed.

Lemma serializeValue_clean v :
  forall data, serializeValue v = OK data -> json_clean data = true.
Proof.
  induction v as [|t p|itemType items IH|keyType itemType items IH
                  |itemType items IH|fields IH] using TValue_ind;
    intros data H.
  - inversion H. reflexivity.
  - destruct t; destruct p as [[b|n|s]|]; simpl in H;
      try discriminate H; try (inversion H; reflexivity).
    all: destruct (isNaN n) eqn:En; [discriminate H|];
      inversion H; simpl; rewrite En; reflexivity.
  - rewrite (proj1 (serialize_sequence _ _)) in H.
    apply bind_inv in H. destruct H as [t [_ H]].
    apply bind_inv in H. destruct H as [js [Hjs H]]. inversion H; subst.
    simpl. apply forallb_forall. apply Forall_forall.
    exact (mapM_Forall_out _ _ _ _ _ IH (fun a b Ha => Ha b) Hjs).
  - rewrite serialize_TMap in H. apply bind_inv in H.
    destruct H as [data2 [Hdata2 H]].
    apply bind_inv in H. destruct H as [kt [_ H]].
    apply bind_inv in H. destruct H as [it [_ H]]. inversion H; subst.
    simpl. rewrite andb_true_r. apply forallb_forall.
    apply Forall_forall.
    change (Forall (fun kx => (fun x => json_clean x = true) (snd kx)) data2).
    revert Hdata2.
    apply (foldM_invariant
             (fun o => Forall (fun kx => (fun x => json_clean x = true)
                                           (snd kx)) o));
      [|constructor].
    intros o e o' He Ho Hstep.
    apply bind_inv in Hstep. destruct Hstep as [[p x] [Hkv Hstep]].
    inversion Hstep; subst. apply (obj_set_Forall (fun x => json_clean x = true)); [|exact Ho].
    apply bind_inv in Hkv. destruct Hkv as [k [_ Hkv]].
    apply bind_inv in Hkv. destruct Hkv as [x' [Hx Hkv]].
    apply bind_inv in Hkv. destruct Hkv as [p' [_ Hkv]].
    inversion Hkv; subst. simpl.
    rewrite Forall_forall in IH. exact (proj2 (IH _ He) _ Hx).
  - rewrite (proj2 (serialize_sequence _ _)) in H.
    rewrite (proj1 (serialize_sequence _ _)) in H.
    apply bind_inv in H. destruct H as [t [_ H]].
    apply bind_inv in H. destruct H as [js [Hjs H]]. inversion H; subst.
    simpl. apply forallb_forall. apply Forall_forall.
    exact (mapM_Forall_out _ _ _ _ _ IH (fun a b Ha => Ha b) Hjs).
  - rewrite serialize_TStruct in H. apply bind_inv in H.
    destruct H as [props [Hprops H]]. inversion H; subst.
    simpl. apply forallb_forall. apply Forall_forall.
    change (Forall (fun kx => (fun x => json_clean x = true) (snd kx)) props).
    revert Hprops.
    apply (foldM_invariant
             (fun o => Forall (fun kx => (fun x => json_clean x = true)
                                           (snd kx)) o));
      [|constructor].
    intros o kf o' Hkf Ho Hstep.
    apply bind_inv in Hstep. destruct Hstep as [[id item] [Hkv Hstep]].
    inversion Hstep; subst. apply (obj_set_Forall (fun x => json_clean x = true)); [|exact Ho].
    apply bind_inv in Hkv. destruct Hkv as [t [_ Hkv]].
    apply bind_inv in Hkv. destruct Hkv as [x [Hx Hkv]].
    inversion Hkv; subst. simpl.
    apply forallb_forall. apply Forall_forall.
    change (Forall (fun kx => (fun x => json_clean x = true) (snd kx))
              (obj_set t x [])).
    apply (obj_set_Forall (fun x => json_clean x = true)); [|constructor].
    rewrite Forall_forall in IH. exact (IH _ Hkf _ Hx).
Qed.

(** Whatever [serializeValue] returns holds neither NaN nor [undefined],
    at any depth. *)
Theorem serialized_data_is_clean v data :
  serializeValue v = OK data -> json_clean data = true.
Proof. apply serializeValue_clean. Qed.

Lemma serialized_data_is_clean_witness :
  serializeValue (TList DOUBLE [TBase DOUBLE None; TNullRef])
  = OK (JArr [JStr "dbl"; JNum (Fin 2 0); JNull; JNull])
  /\ json_clean (JArr [JStr "dbl"; JNum (Fin 2 0); JNull; JNull]) = true.
Proof.
  split; [vm_compute; reflexivity|].
  apply (serialized_data_is_clean
           (TList DOUBLE [TBase DOUBLE None; TNullRef])).
  vm_compute. reflexivity.
Defined.

(** A list that holds a DOUBLE scalar whose payload is NaN does not
    serialize. *)
Lemma NaN_item_refused :
  invalid_data
    (serializeValue
       (TList DOUBLE [TBase DOUBLE (Some (PNum (Fin 1 0)));
                      TBase DOUBLE (Some (PNum NaN))])).
Proof. raises. Qed.

(* ===================================================================== *)
(** * Bulk helpers *)

Lemma mapM_compose {A B} (f : A -> result B) (g : B -> result A) xs :
  (forall x, In x xs -> exists y, f x = OK y /\ g y = OK x) ->
  exists ys, mapM f xs = OK ys /\ mapM g ys = OK xs.
Proof.
  induction xs as [|x xs IH]; intros H.
  - exists []. split; reflexivity.
  - destruct (H x (or_introl eq_refl)) as [y [Hf Hg]].
    destruct IH as [ys [Hys Hback]].
    { intros x' Hx'. apply H. right. exact Hx'. }
    exists (y :: ys). simpl. rewrite Hf, Hys, Hg, Hback. split; reflexivity.
Qed.

(** A list or set built by [newList] / [newSet] from [items] with a
    constructor [f], and read with [map] through a getter [g] that undoes
    [f], gives [items] back, in order; the item tag is the one given. *)
Theorem newList_map {T} itemType (xs : list T) f g :
  (forall x, In x xs -> exists y, f x = OK y /\ g y = OK x) ->
  exists items,
    newList itemType xs f = OK (TList itemType items)
    /\ newSet itemType xs f = OK (TSet itemType items)
    /\ TList_map g items = OK xs
    /\ TSet_map g items = OK xs
    /\ List.length items = List.length xs.
Proof.
  intros H. destruct (mapM_compose f g xs H) as [items [Hf Hg]].
  exists items. unfold newList, newSet, TList_map, TSet_map.
  rewrite Hf. repeat split; try exact Hg. exact (mapM_length _ _ _ Hf).
Qed.

Lemma newList_map_witness :
  exists items,
    newList I32 [Some (PNum (Fin 1 0)); Some (PNum (Fin 2 0)); None]
      (fun p => OK (TBase I32 p))
    = OK (TList I32 items)
    /\ newSet I32 [Some (PNum (Fin 1 0)); Some (PNum (Fin 2 0)); None]
         (fun p => OK (TBase I32 p))
       = OK (TSet I32 items)
    /\ TList_map numberValue items
       = OK [Some (PNum (Fin 1 0)); Some (PNum (Fin 2 0)); None]
    /\ TSet_map numberValue items
       = OK [Some (PNum (Fin 1 0)); Some (PNum (Fin 2 0)); None]
    /\ List.length items = 3%nat.
Proof.
  apply (newList_map I32
           [Some (PNum (Fin 1 0)); Some (PNum (Fin 2 0)); None]
           (fun p => OK (TBase I32 p)) numberValue).
  intros x _. exists (TBase I32 x). split; reflexivity.
Defined.

(** An object turned into a map by [newMap] and back into an object by
    [mapString] is the object it was, when the key and value getters undo
    the key and value constructors: every property comes back, under its
    name, in enumeration order.  The property [__proto__] cannot be
    assigned and is the exception. *)
Theorem newMap_mapString {V} keyType itemType (obj : list (string * V))
  fk fv gk gv :
  (forall kx, In kx obj ->
     exists k x, fk (fst kx) = OK k /\ fv (snd kx) = OK x
                 /\ gk k = OK (fst kx) /\ gv x = OK (snd kx)) ->
  enumeration_order (map fst obj) = true ->
  Forall (fun kx => fst kx <> "__proto__") obj ->
  exists items,
    newMap keyType itemType obj fk fv = OK (TMap keyType itemType items)
    /\ mapString gk gv items = OK obj
    /\ List.length items = List.length obj.
Proof.
  intros H Horder Hproto.
  assert (Hitems :
    exists items,
      mapM (fun item => k <- fk (fst item) ;; x <- fv (snd item) ;;
                        OK (mkTMapEntry k x)) obj = OK items
      /\ Forall2 (fun e kx =>
                    (k <- gk (key e) ;; x <- gv (value e) ;; OK (k, x))
                    = OK kx /\ fst kx <> "__proto__") items obj).
  { clear Horder. induction obj as [|kx obj IH].
    - exists []. split; [reflexivity|constructor].
    - destruct (H kx (or_introl eq_refl)) as [k [x [Hk [Hx [Hgk Hgv]]]]].
      inversion Hproto as [|? ? Hkx Hproto']; subst.
      destruct IH as [items [Hitems Hback]]; [|exact Hproto'|].
      { intros kx' Hin. apply H. right. exact Hin. }
      exists (mkTMapEntry k x :: items). split.
      + simpl. rewrite Hk, Hx, Hitems. reflexivity.
      + constructor; [|exact Hback]. simpl. rewrite Hgk, Hgv. simpl.
        rewrite <- surjective_pairing. auto. }
  destruct Hitems as [items [Hitems Hback]].
  exists items. unfold newMap. rewrite Hitems. split; [reflexivity|].
  split; [|exact (mapM_length _ _ _ Hitems)].
  unfold mapString.
  rewrite (foldM_ext_in _
             (fun acc e =>
                kv <- (k <- gk (key e) ;; x <- gv (value e) ;; OK (k, x)) ;;
                OK (obj_set (fst kv) (snd kv) acc))).
  - exact (foldM_obj_set _ items obj [] Hback Horder).
  - intros acc e _. destruct (gk (key e)); simpl; [|reflexivity].
    destruct (gv (value e)); reflexivity.
Qed.

Lemma newMap_mapString_witness :
  exists items,
    newMap STRING I32
      [("1", Some (PNum (Fin 10 0))); ("a", Some (PNum (Fin 20 0)))]
      (fun s => OK (newString s)) (fun p => OK (TBase I32 p))
    = OK (TMap STRING I32 items)
    /\ mapString
         (fun k => p <- stringValue k ;; OK (payload_name p))
         numberValue items
       = OK [("1", Some (PNum (Fin 10 0))); ("a", Some (PNum (Fin 20 0)))]
    /\ List.length items = 2%nat.
Proof.
  apply (newMap_mapString STRING I32
           [("1", Some (PNum (Fin 10 0))); ("a", Some (PNum (Fin 20 0)))]
           (fun s => OK (newString s)) (fun p => OK (TBase I32 p))
           (fun k => p <- stringValue k ;; OK (payload_name p))
           numberValue).
  - intros kx _. exists (newString (fst kx)), (TBase I32 (snd kx)).
    repeat split; reflexivity.
  - vm_compute. reflexivity.
  - repeat constructor; simpl; discriminate.
Defined.

(* ===================================================================== *)
(** * Through the JSON text *)

Lemma define_own_appends {V} k (v : V) o :
  enumeration_order (map fst o ++ [k]) = true ->
  define_own k v o = (o ++ [(k, v)])%list.
Proof.
  intros H. apply enumeration_order_last in H. rewrite Forall_map in H.
  unfold define_own. rewrite has_own_new.
  - destruct (array_index k) as [n|]; [|reflexivity].
    apply insert_index_last. revert H. apply Forall_impl. tauto.
  - revert H. apply Forall_impl. tauto.
Qed.

(** Members that come in enumeration order are parsed into the object
    that lists them. *)
Lemma parse_members members :
  forall pre,
    enumeration_order (map fst pre ++ map fst members) = true ->
    fold_left (fun o kt => define_own (fst kt) (JSON_parse (snd kt)) o)
              members pre
    = (pre ++ map (fun kt => (fst kt, JSON_parse (snd kt))) members)%list.
Proof.
  induction members as [|[k t] members IH]; intros pre H; simpl.
  - rewrite app_nil_r. reflexivity.
  - simpl in H.
    assert (Happ : (map fst pre ++ k :: map fst members
                    = (map fst pre ++ [k]) ++ map fst members)%list)
      by (rewrite <- app_assoc; reflexivity).
    rewrite Happ in H. rewrite define_own_appends.
    + rewrite IH.
      * rewrite <- app_assoc. reflexivity.
      * rewrite map_app. exact H.
    + exact (enumeration_order_prefix _ _ H).
Qed.

(** [JSON.parse(JSON.stringify(v))] is [v] for the data a text holds as
    it is. *)
Lemma JSON_exact_kept v :
  JSON_exact v = true ->
  exists text, JSON_stringify v = Some text /\ JSON_parse text = v.
Proof.
  induction v as [| |b|n|s|items IH|props IH] using JSValue_ind;
    simpl; intros H; try discriminate H; try (eexists; split; reflexivity).
  - destruct n; try discriminate H. eexists; split; reflexivity.
  - eexists. split; [reflexivity|]. simpl. f_equal.
    rewrite map_map. induction IH as [|x items Hx _ IHitems];
      [reflexivity|].
    simpl in H. apply andb_true_iff in H. destruct H as [H1 H2].
    simpl. rewrite (IHitems H2). destruct (Hx H1) as [t [Ht Hp]].
    rewrite Ht, Hp. reflexivity.
  - apply andb_true_iff in H. destruct H as [Hvalues Horder].
    assert (Hm : map (fun kt => (fst kt, JSON_parse (snd kt)))
                     (flat_map (fun kx => match JSON_stringify (snd kx) with
                                          | Some t => [(fst kx, t)]
                                          | None => []
                                          end) props)
                 = props).
    { clear Horder. induction IH as [|[k x] props Hx _ IHprops];
        [reflexivity|].
      simpl in Hvalues. apply andb_true_iff in Hvalues.
      destruct Hvalues as [H1 H2]. simpl.
      destruct (Hx H1) as [t [Ht Hp]]. simpl in Ht. rewrite Ht. simpl.
      rewrite Hp, (IHprops H2). reflexivity. }
    eexists. split; [reflexivity|]. simpl. f_equal.
    rewrite (parse_members _ []).
    + simpl. exact Hm.
    + simpl. rewrite <- Hm in Horder at 1. rewrite map_map in Horder.
      simpl in Horder. exact Horder.
Qed.

Lemma Forall2_forallb {A B} (R : A -> B -> Prop) (Q : A -> Prop)
  (p : B -> bool) l l' :
  Forall2 R l l' -> Forall Q l ->
  (forall a b, R a b -> Q a -> p b = true) ->
  forallb p l' = true.
Proof.
  intros H HQ Hstep. revert HQ.
  induction H as [|a b l l' Hab _ IH]; intros HQ; [reflexivity|].
  inversion HQ; subst. simpl. rewrite (Hstep a b Hab), IH; auto.
Qed.

(** What is serialized from a tree the wire keeps, whose numbers are
    finite, is data a JSON text holds as it is. *)
Lemma serializeValue_exact v :
  wire_faithful v = true -> finite_payloads v = true ->
  forall data, serializeValue v = OK data -> JSON_exact data = true.
Proof.
  induction v as [|t p|itemType items IH|keyType itemType items IH
                  |itemType items IH|fields IH] using TValue_ind;
    intros Hw Hf data Hs.
  - discriminate Hw.
  - destruct t; destruct p as [[b|n|s]|]; simpl in Hw, Hs;
      try discriminate Hw; try discriminate Hs;
      try (inversion Hs; subst; reflexivity).
    all: destruct (isNaN n); [discriminate Hs|].
    all: inversion Hs; subst; exact Hf.
  - rewrite (proj1 (serialize_sequence _ _)) in Hs.
    apply bind_inv in Hs. destruct Hs as [t [_ Hs]].
    apply bind_inv in Hs. destruct Hs as [xs [Hxs Hs]].
    inversion Hs; subst. simpl. apply forallb_forall.
    apply Forall_forall.
    apply (mapM_Forall_out serializeValue
             (fun x => (wire_faithful x = true -> finite_payloads x = true ->
                        forall data, serializeValue x = OK data ->
                                     JSON_exact data = true)
                       /\ wire_faithful x = true
                       /\ finite_payloads x = true)
             (fun j => JSON_exact j = true) items xs); [| |exact Hxs].
    + simpl in Hw, Hf. apply andb_true_iff in Hw. destruct Hw as [_ Hw].
      rewrite forallb_forall in Hw, Hf. rewrite Forall_forall in IH.
      apply Forall_forall. intros x Hx. specialize (Hw x Hx).
      apply andb_true_iff in Hw. split; [exact (IH x Hx)|].
      split; [tauto|exact (Hf x Hx)].
    + intros a b [Ha [Hwa Hfa]] Hab. exact (Ha Hwa Hfa b Hab).
  - pose proof Hw as Hw0. simpl in Hw.
    apply andb_true_iff in Hw. destruct Hw as [Hw Horder].
    apply andb_true_iff in Hw. destruct Hw as [Hw Hitems].
    apply andb_true_iff in Hw. destruct Hw as [Hkt Hit].
    destruct (entries_survive keyType itemType items) as [out [Hnames [Hser _]]];
      [|exact Hitems|].
    { apply Forall_forall. intros e _.
      split; apply wire_faithful_survives. }
    rewrite serialize_TMap in Hs.
    rewrite (foldM_obj_set _ items out []) in Hs;
      [|exact Hser|simpl; rewrite Hnames; exact Horder].
    rewrite bind_OK in Hs.
    apply bind_inv in Hs. destruct Hs as [kt [_ Hs]].
    apply bind_inv in Hs. destruct Hs as [it [_ Hs]].
    inversion Hs; subst. simpl. rewrite Hnames, Horder, !andb_true_r.
    apply (Forall2_forallb _
             (fun e => In e items) _ items out Hser);
      [apply Forall_forall; auto|].
    intros e kv [Hstep _] He.
    apply bind_inv in Hstep. destruct Hstep as [k [_ Hstep]].
    apply bind_inv in Hstep. destruct Hstep as [x [Hx Hstep]].
    apply bind_inv in Hstep. destruct Hstep as [q [_ Hstep]].
    inversion Hstep; subst. simpl.
    rewrite Forall_forall in IH. apply (proj2 (IH e He)); [| |exact Hx].
    + rewrite forallb_forall in Hitems. specialize (Hitems e He).
      apply andb_true_iff in Hitems. tauto.
    + simpl in Hf. rewrite forallb_forall in Hf. specialize (Hf e He).
      apply andb_true_iff in Hf. tauto.
  - rewrite (proj2 (serialize_sequence _ _)) in Hs.
    rewrite (proj1 (serialize_sequence _ _)) in Hs.
    apply bind_inv in Hs. destruct Hs as [t [_ Hs]].
    apply bind_inv in Hs. destruct Hs as [xs [Hxs Hs]].
    inversion Hs; subst. simpl. apply forallb_forall.
    apply Forall_forall.
    apply (mapM_Forall_out serializeValue
             (fun x => (wire_faithful x = true -> finite_payloads x = true ->
                        forall data, serializeValue x = OK data ->
                                     JSON_exact data = true)
                       /\ wire_faithful x = true
                       /\ finite_payloads x = true)
             (fun j => JSON_exact j = true) items xs); [| |exact Hxs].
    + simpl in Hw, Hf. apply andb_true_iff in Hw. destruct Hw as [_ Hw].
      rewrite forallb_forall in Hw, Hf. rewrite Forall_forall in IH.
      apply Forall_forall. intros x Hx. specialize (Hw x Hx).
      apply andb_true_iff in Hw. split; [exact (IH x Hx)|].
      split; [tauto|exact (Hf x Hx)].
    + intros a b [Ha [Hwa Hfa]] Hab. exact (Ha Hwa Hfa b Hab).
  - simpl in Hw. apply andb_true_iff in Hw. destruct Hw as [Hfields Horder].
    destruct (fields_survive fields) as [out [Hnames [Hser _]]];
      [|exact Hfields|].
    { apply Forall_forall. intros kf _. apply wire_faithful_survives. }
    rewrite serialize_TStruct in Hs.
    rewrite (foldM_obj_set _ fields out []) in Hs;
      [|exact Hser|simpl; rewrite Hnames; exact Horder].
    rewrite bind_OK in Hs. inversion Hs; subst. simpl.
    apply andb_true_iff. split; [|rewrite Hnames; exact Horder].
    apply (Forall2_forallb _
             (fun kf => In kf fields) _ fields out Hser);
      [apply Forall_forall; auto|].
    intros kf kv [Hstep _] Hkf.
    rewrite forallb_forall in Hfields. specialize (Hfields kf Hkf).
    apply andb_true_iff in Hfields. destruct Hfields as [Hfields Hwf].
    apply andb_true_iff in Hfields. destruct Hfields as [Hfields _].
    apply andb_true_iff in Hfields. destruct Hfields as [_ Hft].
    destruct (typeString_inverse _ Hft) as [s [Hts [_ Hset]]].
    rewrite Hts, bind_OK in Hstep.
    apply bind_inv in Hstep. destruct Hstep as [x [Hx Hstep]].
    inversion Hstep; subst. simpl. rewrite Hset. simpl.
    rewrite Forall_forall in IH. rewrite (IH kf Hkf Hwf); [| |exact Hx].
    + simpl. destruct (array_index s); reflexivity.
    + simpl in Hf. rewrite forallb_forall in Hf. exact (Hf kf Hkf).
Qed.

Lemma writeStruct_text fields :
  writeStruct fields
  = (data <- serializeValue (TStruct fields) ;; OK (JSON_stringify data)).
Proof.
  change (serializeValue (TStruct fields)) with
    (data <- foldM (fun data kf =>
                      t <- typeString (fieldType (snd kf)) ;;
                      x <- serializeValue (field_value (snd kf)) ;;
                      OK (obj_set (fst kf) (JObj (obj_set t x [])) data))
                   fields [] ;;
     OK (JObj data)).
  unfold writeStruct.
  match goal with |- bind ?c _ = _ => destruct c end; reflexivity.
Qed.

(** A struct the wire keeps, whose numbers are finite, is written as a
    text from which it is read back. *)
Lemma struct_written_read (fields : list (string * TField)) :
  wire_faithful (TStruct fields) = true ->
  finite_payloads (TStruct fields) = true ->
  exists text,
    writeStruct fields = OK (Some text)
    /\ readStruct (JSON_parse text) = OK (TStruct fields).
Proof.
  intros Hw Hf. destruct (wire_faithful_survives _ Hw) as [data [Hs Hd]].
  destruct (JSON_exact_kept data (serializeValue_exact _ Hw Hf _ Hs))
    as [text [Htext Hparse]].
  exists text. split.
  - rewrite writeStruct_text, Hs, bind_OK, Htext. reflexivity.
  - rewrite Hparse. unfold readStruct.
    assert (Hobj : exists props, data = JObj props).
    { rewrite serialize_TStruct in Hs. apply bind_inv in Hs.
      destruct Hs as [props [_ Hs]]. inversion Hs. eauto. }
    destruct Hobj as [props ->]. simpl. apply Hd. reflexivity.
Qed.



(** An infinite number does not go through the text: it is written
    [null], and the field is read back without payload. *)
Lemma Infinity_written_as_null :
  writeStruct
    [("1", mkTField DOUBLE (TBase DOUBLE (Some (PNum (Infinity false)))))]
  = OK (Some (json_object [("1", json_object [("dbl", json_null)])]))
  /\ readStruct
       (JSON_parse (json_object [("1", json_object [("dbl", json_null)])]))
     = OK (TStruct [("1", mkTField DOUBLE (TBase DOUBLE None))]).
Proof. split; run. Qed.



(** The frame holds no [undefined] and no NaN: a message without name and
    with NaN as sequence id is read back with [null] for both. *)
Lemma frame_written_with_null :
  writeMessage (mkTMessage JUndefined (JNum (Fin 1 0)) (JNum NaN) (TStruct []))
  = OK (Some (json_array [json_number 1 0; json_null; json_number 1 0;
                          json_null; json_object []]))
  /\ readMessage
       (JSON_parse (json_array [json_number 1 0; json_null; json_number 1 0;
                                json_null; json_object []]))
     = OK (mkTMessage JNull (JNum (Fin 1 0)) JNull (TStruct [])).
Proof. split; run. Qed.

(* ===================================================================== *)
(** * Application exceptions *)

Lemma tagged_scalar t x :
  is_scalar_tag t = true ->
  valueType x = OK t -> well_tagged x = true ->
  exists p, x = TBase t p /\
            match p with
            | Some q => payload_kind_fits t q = true
            | None => True
            end.
Proof.
  intros Ht Hx Hw.
  destruct x as [|t0 p| | | |]; simpl in Hx; inversion Hx; subst;
    try discriminate Ht.
  exists p. split; [reflexivity|]. destruct p; [exact Hw|exact I].
Qed.

(** [write] then [read] gives the exception back: the code comes back as
    it was, absent when it was absent, and so does a message that is
    present; an exception without message comes back with the empty
    message, since [read] deletes the property.  What the receiver of
    [read] held before plays no part. *)
Theorem exception_write_read this e :
  exists fields,
    TApplicationException_write e = OK (TStruct fields)
    /\ TApplicationException_read this fields
       = OK (mkTApplicationException
               (code e)
               match message e with
               | Some m => Some m
               | None => Some (PStr "")
               end).
Proof.
  destruct e as [[c|] [m|]]; eexists; split; vm_compute; reflexivity.
Qed.



(** An infinite code does not go through the text: field 1 is written
    [null] and the code is read back unset. *)
Lemma infinite_code_read_unset :
  exists fields text fields',
    TApplicationException_write
      (mkTApplicationException (Some (PNum (Infinity false)))
         (Some (PStr "boom")))
    = OK (TStruct fields)
    /\ writeStruct fields = OK (Some text)
    /\ readStruct (JSON_parse text) = OK (TStruct fields')
    /\ TApplicationException_read (TApplicationException_new None None)
         fields'
       = OK (mkTApplicationException None (Some (PStr "boom"))).
Proof. do 3 eexists. repeat split; vm_compute; reflexivity. Qed.

(** [read] never raises on a struct that [readStruct] returned.  The code
    is the payload of field 1 when the struct has a field 1 declared I32,
    a number or nothing, and is unset otherwise; the message is the
    payload of field 2 when the struct has a field 2 declared STRING, a
    string or nothing, and is the empty string otherwise. *)
Theorem exception_read_of_decoded this data fields :
  readStruct data = OK (TStruct fields) ->
  exists e,
    TApplicationException_read this fields = OK e
    /\ match getField fields (Fin 1 0) I32 with
       | Some f =>
           field_value f = TBase I32 (code e)
           /\ (code e = None \/ exists n, code e = Some (PNum n))
       | None => code e = None
       end
    /\ match getField fields (Fin 2 0) STRING with
       | Some f =>
           field_value f = TBase STRING (message e)
           /\ (message e = None \/ exists s, message e = Some (PStr s))
       | None => message e = Some (PStr "")
       end.
Proof.
  intros Hread. unfold readStruct in Hread.
  destruct (negb (truthy data)); [discriminate Hread|].
  destruct (deserializeValue_tagged _ _ _ Hread) as [_ Hw].
  unfold TApplicationException_read.
  destruct (getField fields (Fin 1 0) I32) as [f1|] eqn:E1;
    destruct (getField fields (Fin 2 0) STRING) as [f2|] eqn:E2.
  all: try (destruct (getField_tagged _ _ _ _ Hw E1) as [Ht1 Hwell1];
            destruct (tagged_scalar I32 _ eq_refl Ht1 Hwell1)
              as [p1 [Hp1 Hkind1]];
            unfold TField_numberValue; rewrite Hp1).
  all: try (destruct (getField_tagged _ _ _ _ Hw E2) as [Ht2 Hwell2];
            destruct (tagged_scalar STRING _ eq_refl Ht2 Hwell2)
              as [p2 [Hp2 Hkind2]];
            unfold TField_stringValue; rewrite Hp2).
  all: try (destruct p1 as [[?|?|?]|]; try discriminate Hkind1).
  all: try (destruct p2 as [[?|?|?]|]; try discriminate Hkind2).
  all: eexists; split; [reflexivity|]; simpl; repeat split; eauto.
Qed.

Lemma exception_read_of_decoded_witness :
  readStruct (JObj [("1", JObj [("str", JStr "not a code")]);
                    ("2", JObj [("str", JNull)])])
  = OK (TStruct
          [("1", mkTField STRING (TBase STRING (Some (PStr "not a code"))));
           ("2", mkTField STRING (TBase STRING None))])
  /\ exists e,
       TApplicationException_read (TApplicationException_new None None)
         [("1", mkTField STRING (TBase STRING (Some (PStr "not a code"))));
          ("2", mkTField STRING (TBase STRING None))]
       = OK e
       /\ code e = None
       /\ (TBase STRING None = TBase STRING (message e)
           /\ (message e = None \/ exists s, message e = Some (PStr s))).
Proof.
  split; [vm_compute; reflexivity|].
  apply (exception_read_of_decoded (TApplicationException_new None None)
           (JObj [("1", JObj [("str", JStr "not a code")]);
                  ("2", JObj [("str", JNull)])])
           [("1", mkTField STRING (TBase STRING (Some (PStr "not a code"))));
            ("2", mkTField STRING (TBase STRING None))]).
  vm_compute. reflexivity.
Defined.

(* ===================================================================== *)
(** * The kinds of failure *)

Lemma oid_OK {A} (a : A) : only_invalid_data (OK a).
Proof. intros kind message H. discriminate H. Qed.

Lemma oid_throw {A} message : only_invalid_data (@throw A INVALID_DATA message).
Proof. intros kind m H. inversion H. reflexivity. Qed.

Lemma oid_TypeError {A} message :
  only_invalid_data (@Throw A (TypeError message)).
Proof. intros kind m H. discriminate H. Qed.

Lemma oid_bind {A B} (c : result A) (k : A -> result B) :
  only_invalid_data c -> (forall a, c = OK a -> only_invalid_data (k a)) ->
  only_invalid_data (bind c k).
Proof.
  intros Hc Hk. destruct c as [a|e]; simpl.
  - apply Hk. reflexivity.
  - intros kind message H. inversion H; subst. exact (Hc _ _ eq_refl).
Qed.

Lemma oid_mapM {A B} (f : A -> result B) l :
  (forall x, In x l -> only_invalid_data (f x)) ->
  only_invalid_data (mapM f l).
Proof.
  induction l as [|x l IH]; intros H; simpl; [apply oid_OK|].
  apply oid_bind; [apply H; left; reflexivity|]. intros y _.
  apply oid_bind; [|intros; apply oid_OK].
  apply IH. intros x' Hx'. apply H. right. exact Hx'.
Qed.

Lemma oid_foldM {A S} (f : S -> A -> result S) l :
  (forall s x, In x l -> only_invalid_data (f s x)) ->
  forall s, only_invalid_data (foldM f l s).
Proof.
  induction l as [|x l IH]; intros H s; simpl; [apply oid_OK|].
  apply oid_bind; [apply H; left; reflexivity|]. intros s' _.
  apply IH. intros s0 x' Hx'. apply H. right. exact Hx'.
Qed.

Lemma oid_ToString v : only_invalid_data (ToString v).
Proof.
  induction v as [| |b|n|s|items IH|props IH] using JSValue_ind;
    try apply oid_OK.
  - simpl. apply oid_bind; [|intros; apply oid_OK].
    apply oid_mapM. intros x Hx. rewrite Forall_forall in IH.
    destruct (isNull x); [apply oid_OK|exact (IH x Hx)].
  - simpl. destruct (has_own "toString" props);
      [apply oid_TypeError|apply oid_OK].
Qed.

Lemma oid_ToNumber v : only_invalid_data (ToNumber v).
Proof.
  destruct v; try apply oid_OK;
    (apply oid_bind; [apply oid_ToString|intros; apply oid_OK]).
Qed.

Lemma oid_loose_neq v k : only_invalid_data (loose_neq v k).
Proof.
  unfold loose_neq. destruct (isNull v); [apply oid_OK|].
  apply oid_bind; [apply oid_ToNumber|intros; apply oid_OK].
Qed.

Lemma oid_less_than v k : only_invalid_data (less_than v k).
Proof.
  unfold less_than.
  apply oid_bind; [apply oid_ToNumber|intros; apply oid_OK].
Qed.

Lemma oid_typeOfString x : only_invalid_data (typeOfString x).
Proof.
  assert (H : only_invalid_data
                (ToString x ;;; @throw TType INVALID_DATA "unsupported type ("))
    by (apply oid_bind; [apply oid_ToString|intros; apply oid_throw]).
  unfold typeOfString. destruct x; try exact H.
  repeat match goal with
         | |- only_invalid_data (if ?b then _ else _) => destruct b
         end; try apply oid_OK; exact H.
Qed.

Lemma oid_typeString t : only_invalid_data (typeString t).
Proof. destruct t; try apply oid_OK; apply oid_throw. Qed.

Ltac oid_step :=
  first
    [ apply oid_OK | apply oid_throw | apply oid_TypeError
    | apply oid_typeOfString | apply oid_typeString | apply oid_loose_neq
    | apply oid_less_than | apply oid_ToString
    | apply oid_bind; [|intros ? ?] ].

Lemma oid_serializeValue v : only_invalid_data (serializeValue v).
Proof.
  induction v as [|t p|itemType items IH|keyType itemType items IH
                  |itemType items IH|fields IH] using TValue_ind.
  - apply oid_OK.
  - destruct t; destruct p as [[b|n|s]|]; simpl;
      try apply oid_OK; try apply oid_throw; try apply oid_TypeError.
    all: destruct (isNaN n); [apply oid_throw|apply oid_OK].
  - rewrite (proj1 (serialize_sequence _ _)). repeat oid_step.
    apply oid_mapM. rewrite Forall_forall in IH. exact IH.
  - rewrite serialize_TMap. rewrite Forall_forall in IH.
    apply oid_bind; [|intros; repeat oid_step].
    apply oid_foldM. intros o e He.
    apply oid_bind; [|intros; apply oid_OK].
    apply oid_bind; [exact (proj1 (IH e He))|intros k _].
    apply oid_bind; [exact (proj2 (IH e He))|intros x _].
    repeat oid_step.
  - rewrite (proj2 (serialize_sequence _ _)).
    rewrite (proj1 (serialize_sequence _ _)). repeat oid_step.
    apply oid_mapM. rewrite Forall_forall in IH. exact IH.
  - rewrite serialize_TStruct. rewrite Forall_forall in IH.
    apply oid_bind; [|intros; apply oid_OK].
    apply oid_foldM. intros o kf Hkf.
    apply oid_bind; [|intros; apply oid_OK].
    apply oid_bind; [apply oid_typeString|intros t _].
    apply oid_bind; [exact (IH kf Hkf)|intros; apply oid_OK].
Qed.

Section failures.
Variable self : TType -> JSValue -> result TValue.
Hypothesis oid_self : forall t v, only_invalid_data (self t v).

Lemma oid_sequence what make v :
  only_invalid_data (deserialize_sequence self what make v).
Proof.
  unfold deserialize_sequence.
  apply oid_bind;
    [destruct (truthy v); [apply oid_less_than|apply oid_OK]|].
  intros [|] _; [apply oid_throw|].
  destruct v; try apply oid_TypeError.
  destruct (shift items) as [t l1]. apply oid_bind; [apply oid_typeOfString|].
  intros itemType _. destruct (shift l1) as [size data].
  apply oid_bind; [apply oid_mapM; intros; apply oid_self|]. intros xs _.
  apply oid_bind; [apply oid_loose_neq|].
  intros [|] _; [apply oid_throw|apply oid_OK].
Qed.

Lemma oid_body t v : only_invalid_data (deserializeValue_body self t v).
Proof.
  destruct t; unfold deserializeValue_body;
    try apply oid_sequence;
    try (destruct (isNull v); [apply oid_OK|]);
    try (destruct v; first [apply oid_OK|apply oid_throw]).
  - repeat oid_step.
  - repeat oid_step.
  - (* STRUCT *)
    destruct (negb (truthy v)); [apply oid_throw|].
    apply oid_bind; [|intros; apply oid_OK].
    apply oid_foldM. intros fs id_inner _.
    apply oid_foldM. intros fs' type_x _.
    apply oid_bind; [apply oid_typeOfString|intros ft _].
    apply oid_bind; [apply oid_self|intros; apply oid_OK].
  - (* MAP *)
    apply oid_bind;
      [destruct (truthy v); [apply oid_loose_neq|apply oid_OK]|].
    intros [|] _; [apply oid_throw|].
    destruct v; try apply oid_TypeError.
    destruct (shift items) as [kt l1].
    apply oid_bind; [apply oid_typeOfString|intros keyType _].
    destruct (shift l1) as [it l2].
    apply oid_bind; [apply oid_typeOfString|intros itemType _].
    destruct (shift l2) as [size l3]. destruct (shift l3) as [data l4].
    apply oid_bind.
    + apply oid_mapM. intros kx _.
      apply oid_bind; [apply oid_self|intros k _].
      apply oid_bind; [apply oid_self|intros; apply oid_OK].
    + intros entries _. apply oid_bind; [apply oid_loose_neq|].
      intros [|] _; [apply oid_throw|apply oid_OK].
Qed.
End failures.

Lemma oid_deserializeValue_upto levels :
  forall t v, only_invalid_data (deserializeValue_upto levels t v).
Proof.
  induction levels as [|n IH]; intros t v.
  - intros kind message H. discriminate H.
  - exact (oid_body _ IH t v).
Qed.

